(** * TestGenealogy: the pedigree pipeline of [frontend/src/App.tsx]

    A shallow embedding of the record normalizer ([parseId], [readField],
    [normalizePerson], [normalizeDataset]), the ancestor tree builder
    ([buildMap], [buildTree], [findRootId]), the disclosure engine
    ([PersonCard] and its [toggle]) and the load pipeline ([loadFile]),
    followed by the properties stated about them.

    Modelling conventions.
    - A JavaScript number is [NaN], an infinity or a finite value, a double
      held as the rational it denotes.  A sum or a product is the exact one
      rounded to the nearest double, a tie going to the even mantissa and
      anything from 2^1024 on to an infinity, as IEEE 754 has it: [k * 2 + 1]
      is [2k + 1] for an integer [k] of magnitude below 2^52, and one of its
      even neighbours from there on.  The two zeros are one value, as they
      are for [Map] keys and for [!x].
    - A thrown exception is the [Throw] completion; a call that exhausts the
      call stack throws a [RangeError], so the recursive [buildTree] takes
      the number of stack frames it may use.
    - [Map<number, _>] and [Record<number, _>] are finite maps keyed by
      number; a [Record] stringifies its keys, which is injective on numbers. *)

From Stdlib Require Import ZArith QArith Qcanon String List.
From stdpp Require Import base numbers countable gmap strings list.

Local Open Scope string_scope.
Set Warnings "-register-all,-clear-no-such-hyp".

(** ** Numbers *)

Inductive number : Type :=
  | NaN
  | Infinity (negative : bool)
  | Fin (q : Qc).

Global Instance number_eq_dec : EqDecision number.
Proof. solve_decision. Defined.

Definition number_to_sum (n : number) : unit + (bool + Qc) :=
  match n with
  | NaN => inl tt
  | Infinity b => inr (inl b)
  | Fin q => inr (inr q)
  end.

Definition number_of_sum (s : unit + (bool + Qc)) : number :=
  match s with
  | inl _ => NaN
  | inr (inl b) => Infinity b
  | inr (inr q) => Fin q
  end.

Global Instance number_countable : Countable number.
Proof. apply (inj_countable' number_to_sum number_of_sum). by intros []. Defined.

(** An integer literal of the source, and a decimal one. *)
Definition num (z : Z) : number := Fin (Q2Qc (inject_Z z)).
Definition numQ (q : Q) : number := Fin (Q2Qc q).

(** The integer nearest to [n / d], for [d > 0], a tie going to the even one. *)
Definition nearestEven (n d : Z) : Z :=
  match (2 * (n mod d) ?= d)%Z with
  | Lt => (n / d)%Z
  | Gt => (n / d + 1)%Z
  | Eq => if Z.even (n / d) then (n / d)%Z else (n / d + 1)%Z
  end.

(** The integer [l] with [2^l <= n / d < 2^(l+1)], for [n, d > 0]. *)
Definition log2Q (n d : Z) : Z :=
  let l := (Z.log2 n - Z.log2 d)%Z in
  if (d * 2 ^ Z.max 0 l <=? n * 2 ^ Z.max 0 (- l))%Z then l else (l - 1)%Z.

(** The exponent of the last bit of the double nearest to [n / d]: 52 below
    its leading bit, and -1074 at least. *)
Definition ulpExponent (n d : Z) : Z := Z.max (log2Q n d - 52) (-1074).

(** A rational rounded to a double: the nearest one, a tie going to the even
    mantissa, and an infinity from 2^1024 on. *)
Definition round64 (q : Qc) : number :=
  let n := Z.abs (Qnum q) in
  let d := Z.pos (Qden q) in
  if (n =? 0)%Z then Fin (Q2Qc 0)
  else
    let e := ulpExponent n d in
    let m := nearestEven (n * 2 ^ Z.max 0 (- e)) (d * 2 ^ Z.max 0 e) in
    if (2 ^ 1024 * 2 ^ Z.max 0 (- e) <=? m * 2 ^ Z.max 0 e)%Z
    then Infinity (Qnum q <? 0)%Z
    else Fin (Q2Qc (Qred ((Z.sgn (Qnum q) * m * 2 ^ Z.max 0 e)
                           # Z.to_pos (2 ^ Z.max 0 (- e))))).

(** [x + y] on numbers. *)
Definition num_add (x y : number) : number :=
  match x, y with
  | NaN, _ | _, NaN => NaN
  | Infinity a, Infinity b => if Bool.eqb a b then Infinity a else NaN
  | Infinity a, Fin _ | Fin _, Infinity a => Infinity a
  | Fin p, Fin q => round64 (p + q)
  end.

(** [x * y] on numbers. *)
Definition num_mul (x y : number) : number :=
  match x, y with
  | NaN, _ | _, NaN => NaN
  | Infinity a, Infinity b => Infinity (xorb a b)
  | Infinity a, Fin q | Fin q, Infinity a =>
      if decide (q = 0%Qc) then NaN else Infinity (xorb a (bool_decide (q < 0)%Qc))
  | Fin p, Fin q => round64 (p * q)
  end.

(** [Number.isFinite]. *)
Definition isFinite (n : number) : bool :=
  match n with
  | Fin _ => true
  | _ => false
  end.

(** [!n] for a number: zero and [NaN] are falsy. *)
Definition falsy_number (n : number) : bool :=
  match n with
  | NaN => true
  | Infinity _ => false
  | Fin q => bool_decide (q = 0%Qc)
  end.

(** The smaller of two numbers as [Math.min] takes it: [NaN] is absorbing. *)
Definition num_min (x y : number) : number :=
  match x, y with
  | NaN, _ | _, NaN => NaN
  | Infinity true, _ | _, Infinity true => Infinity true
  | Infinity false, z | z, Infinity false => z
  | Fin p, Fin q => if decide (p <= q)%Qc then Fin p else Fin q
  end.

(** [Math.min(...l)]; with no argument it is [+Infinity]. *)
Definition Math_min (l : list number) : number := foldr num_min (Infinity false) l.

(** [x <= y] between numbers; every comparison with [NaN] is false. *)
Definition num_le (x y : number) : Prop :=
  match x, y with
  | NaN, _ | _, NaN => False
  | Infinity true, _ | _, Infinity false => True
  | Infinity false, _ | _, Infinity true => False
  | Fin p, Fin q => (p <= q)%Qc
  end.

Global Instance num_le_dec (x y : number) : Decision (num_le x y).
Proof. destruct x as [|[]|p], y as [|[]|q]; cbn; apply _. Defined.

(** ** Completions: a value, or a thrown exception *)

Inductive JsError : Type :=
  | Error (message : string)
  | TypeError (message : string)
  | RangeError (message : string).

Definition message (e : JsError) : string :=
  match e with
  | Error m | TypeError m | RangeError m => m
  end.

Inductive Completion (A : Type) : Type :=
  | Normal (value : A)
  | Throw (error : JsError).
Arguments Normal {A} value.
Arguments Throw {A} error.

Global Instance Completion_ret : MRet Completion := λ A x, Normal x.
Global Instance Completion_bind : MBind Completion := λ A B f c,
  match c with
  | Normal x => f x
  | Throw e => Throw e
  end.

(** ** JSON values, as [response.json()] yields them *)

Inductive JsValue : Type :=
  | JUndefined
  | JNull
  | JBool (b : bool)
  | JNum (n : number)
  | JStr (s : string)
  | JArr (items : list JsValue)
  | JObj (fields : list (string * JsValue)).

(** The own property [key] of an object whose properties are [fields]
    (the names of a parsed object are distinct), [undefined] when it has none. *)
Fixpoint own_property (fields : list (string * JsValue)) (key : string) : JsValue :=
  match fields with
  | [] => JUndefined
  | (k, v) :: rest => if decide (k = key) then v else own_property rest key
  end.

Definition has_own_property (fields : list (string * JsValue)) (key : string) : bool :=
  bool_decide (key ∈ fields.*1).

(** [v?.key], for a [key] that no built-in prototype defines (all the keys
    this program reads are such): the own property of an object, [undefined]
    on anything else. *)
Definition OptGet (v : JsValue) (key : string) : JsValue :=
  match v with
  | JObj fields => own_property fields key
  | _ => JUndefined
  end.

(** [v[key]], same keys: reading a property of [undefined] or [null] throws
    a [TypeError], whose text is the engine's. *)
Definition Get (v : JsValue) (key : string) : Completion JsValue :=
  match v with
  | JUndefined | JNull =>
      Throw (TypeError "Cannot read properties of undefined or null")
  | _ => Normal (OptGet v key)
  end.

(** [!v]. *)
Definition falsy (v : JsValue) : bool :=
  match v with
  | JUndefined | JNull => true
  | JBool b => negb b
  | JNum n => falsy_number n
  | JStr s => bool_decide (s = "")
  | JArr _ | JObj _ => false
  end.

Definition nullish (v : JsValue) : bool :=
  match v with
  | JUndefined | JNull => true
  | _ => false
  end.

(** What the engine supplies and the repository does not: the conversions
    between strings and numbers of ECMAScript ([StringToNumber],
    [Number::toString]).  Nothing below depends on what they compute. *)
Class JsRuntime : Type := {
  StringToNumber : string → number;
  NumberToString : number → string;
}.

Definition cannot_convert : JsError :=
  TypeError "Cannot convert object to primitive value".

Section Coercions.
Context `{JsRuntime}.

(** [String(v)].  An array joins the strings of its elements with commas,
    [undefined] and [null] elements giving the empty string.  An object is
    converted by [OrdinaryToPrimitive]: it calls [toString] then [valueOf]
    when they are functions; an own property of a parsed object is never a
    function, so an own [toString] hides [Object.prototype.toString] and
    the conversion throws, and otherwise the result is "[object Object]"
    ([Object.prototype.valueOf] returns the object, which is no primitive). *)
Fixpoint ToString (v : JsValue) : Completion string :=
  match v with
  | JUndefined => Normal "undefined"
  | JNull => Normal "null"
  | JBool b => Normal (if b then "true" else "false")
  | JNum n => Normal (NumberToString n)
  | JStr s => Normal s
  | JArr items =>
      (fix join (l : list JsValue) : Completion string :=
         match l with
         | [] => Normal ""
         | x :: rest =>
             s ← (if nullish x then Normal "" else ToString x);
             match rest with
             | [] => Normal s
             | _ => r ← join rest; Normal (s ++ "," ++ r)
             end
         end) items
  | JObj fields =>
      if has_own_property fields "toString" then Throw cannot_convert
      else Normal "[object Object]"
  end.

(** [Number(v)]: arrays and objects go through their primitive, a string. *)
Definition ToNumber (v : JsValue) : Completion number :=
  match v with
  | JUndefined => Normal NaN
  | JNull => Normal (num 0)
  | JBool b => Normal (if b then num 1 else num 0)
  | JNum n => Normal n
  | JStr s => Normal (StringToNumber s)
  | JArr _ | JObj _ => s ← ToString v; Normal (StringToNumber s)
  end.
End Coercions.

(** ** The canonical entity *)

Inductive OverrideState : Type := expand | collapse.

Global Instance OverrideState_eq_dec : EqDecision OverrideState.
Proof. solve_decision. Defined.

(** [NormalizedPerson]; [generation] is [None] for [null] or [undefined],
    [gender] is whatever value the record carried, [JNull] when it had none. *)
Inductive NormalizedPerson : Type := mkPerson {
  id : number;
  generation : option number;
  gender : JsValue;
  name : string;
  birthDate : string;
  birthPlace : string;
  spouse : string;
  unionDate : string;
  unionPlace : string;
  childrenCount : string;
  deathDate : string;
  deathPlace : string;
  deathAge : string;
  job : string;
  children : list NormalizedPerson;
}.

(** [Overrides = Record<number, OverrideState>]. *)
Abbreviation Overrides := (gmap number OverrideState).

(** [Map<number, NormalizedPerson>]. *)
Abbreviation PeopleMap := (gmap number NormalizedPerson).

Definition DEFAULT_DEPTH : Z := 4.

(** The table of candidate keys of each display field. *)
Module fieldMap.
Definition name : list string := ["Personne"; "name"].
Definition birthDate : list string := ["Date de naissance"; "birth_date"; "birthDate"].
Definition birthPlace : list string := ["Lieu de naissance"; "birth_place"; "birthPlace"].
Definition spouse : list string := ["Conjoints"; "spouse"].
Definition unionDate : list string := ["Date de l'union"; "union_date"; "unionDate"].
Definition unionPlace : list string := ["Lieu de l'union"; "union_place"; "unionPlace"].
Definition childrenCount : list string := ["Nb. enfants"; "children_count"; "childrenCount"].
Definition deathDate : list string := ["Date de décès"; "death_date"; "deathDate"].
Definition deathPlace : list string := ["Lieu de décès"; "death_place"; "deathPlace"].
Definition deathAge : list string := ["Âge au décès"; "age_at_death"; "deathAge"].
Definition job : list string := ["Profession"; "professions"; "job"].
End fieldMap.

(** [a ?? b] between two computations: [b] runs only when [a] gave [null]. *)
Definition coalesce {A} (a b : Completion (option A)) : Completion (option A) :=
  x ← a;
  match x with
  | Some v => Normal (Some v)
  | None => b
  end.
Infix "??" := coalesce (at level 60, right associativity).

(** [.filter(Boolean)] on a list of objects or [null]. *)
Fixpoint filterBoolean {A} (l : list (option A)) : list A :=
  match l with
  | [] => []
  | Some x :: rest => x :: filterBoolean rest
  | None :: rest => filterBoolean rest
  end.

(** ** Record normalizer *)

Section Normalizer.
Context `{JsRuntime}.

Definition parseId (value : JsValue) : Completion (option number) :=
  if nullish value then Normal None
  else
    parsed ← ToNumber value;
    Normal (if isFinite parsed then Some parsed else None).

Fixpoint readField (raw : JsValue) (keys : list string) : Completion string :=
  match keys with
  | [] => Normal ""
  | key :: rest =>
      candidate ← Get raw key;
      if nullish candidate then readField raw rest else ToString candidate
  end.

Definition normalizePerson (raw : JsValue) : Completion (option NormalizedPerson) :=
  id ← parseId (OptGet raw "id") ??
       parseId (OptGet raw "ID") ??
       parseId (OptGet raw "Id") ??
       parseId (OptGet raw "sosa") ??
       parseId (OptGet raw "Sosa");
  match id with
  | None => Normal None
  | Some id =>
      generation ← parseId (OptGet raw "generation");
      let gender := if nullish (OptGet raw "gender") then JNull else OptGet raw "gender" in
      name ← readField raw fieldMap.name;
      birthDate ← readField raw fieldMap.birthDate;
      birthPlace ← readField raw fieldMap.birthPlace;
      spouse ← readField raw fieldMap.spouse;
      unionDate ← readField raw fieldMap.unionDate;
      unionPlace ← readField raw fieldMap.unionPlace;
      childrenCount ← readField raw fieldMap.childrenCount;
      deathDate ← readField raw fieldMap.deathDate;
      deathPlace ← readField raw fieldMap.deathPlace;
      deathAge ← readField raw fieldMap.deathAge;
      job ← readField raw fieldMap.job;
      Normal (Some (mkPerson id generation gender name birthDate birthPlace spouse
                      unionDate unionPlace childrenCount deathDate deathPlace
                      deathAge job []))
  end.

(** The list [normalizeDataset] maps over. *)
Definition containerOf (data : JsValue) : list JsValue :=
  match data with
  | JArr items => items
  | _ =>
      match OptGet data "people" with
      | JArr items => items
      | _ =>
          match OptGet data "records" with
          | JArr items => items
          | _ => [data]
          end
      end
  end.

Definition normalizeDataset (data : JsValue) : Completion (list NormalizedPerson) :=
  if falsy data then Normal []
  else
    people ← mapM normalizePerson (containerOf data);
    Normal (filterBoolean people).

End Normalizer.

(** ** Ancestor tree builder *)

Declare Scope num_scope.
Delimit Scope num_scope with num.
Infix "+" := num_add : num_scope.
Infix "*" := num_mul : num_scope.

(** [peopleMap.has(key)]. *)
Definition Map_has (peopleMap : PeopleMap) (key : number) : bool :=
  bool_decide (is_Some (peopleMap !! key)).

(** [{ ...person, children: [] }]. *)
Definition withoutChildren (person : NormalizedPerson) : NormalizedPerson :=
  mkPerson (id person) (generation person) (gender person) (name person)
    (birthDate person) (birthPlace person) (spouse person) (unionDate person)
    (unionPlace person) (childrenCount person) (deathDate person)
    (deathPlace person) (deathAge person) (job person) [].

Definition buildMap (people : list NormalizedPerson) : PeopleMap :=
  foldl (λ map person, <[id person := withoutChildren person]> map) ∅ people.

(** [{ ...node, generation: node.generation ?? inherited, children: kids }]. *)
Definition treeNode (node : NormalizedPerson) (inherited : number)
    (kids : list NormalizedPerson) : NormalizedPerson :=
  mkPerson (id node) (Some (default inherited (generation node))) (gender node)
    (name node) (birthDate node) (birthPlace node) (spouse node) (unionDate node)
    (unionPlace node) (childrenCount node) (deathDate node) (deathPlace node)
    (deathAge node) (job node) kids.

Definition stack_overflow : JsError :=
  RangeError "Maximum call stack size exceeded".

(** [buildTree(rootId, peopleMap, generation)] with [stack] frames left. *)
Fixpoint buildTree (stack : nat) (rootId : number) (peopleMap : PeopleMap)
    (generation : number) : Completion (option NormalizedPerson) :=
  match stack with
  | O => Throw stack_overflow
  | S stack =>
      match peopleMap !! rootId with
      | None => Normal None
      | Some node =>
          let leftId := (rootId * num 2)%num in
          let rightId := (rootId * num 2 + num 1)%num in
          left ← (if Map_has peopleMap leftId
                  then buildTree stack leftId peopleMap (generation + num 1)%num
                  else Normal None);
          right ← (if Map_has peopleMap rightId
                   then buildTree stack rightId peopleMap (generation + num 1)%num
                   else Normal None);
          Normal (Some (treeNode node generation (filterBoolean [left; right])))
      end
  end.

(** [Array.from(peopleMap.keys())], in some order; [Math.min] ignores it.
    The keys are spread into the arguments of [Math.min]: the map is taken
    to have no more keys than the engine accepts arguments. *)
Definition Map_keys (peopleMap : PeopleMap) : list number :=
  elements (dom peopleMap).

Definition findRootId (peopleMap : PeopleMap) : option number :=
  if decide (size peopleMap = 0%nat) then None
  else if Map_has peopleMap (num 1) then Some (num 1)
  else Some (Math_min (Map_keys peopleMap)).

(** ** Disclosure engine *)

(** What a [PersonCard] renders: its own card, the open or closed affordance
    when it has children, and below it the cards of the children it shows. *)
Inductive View : Type :=
  | Card (person : number) (affordance : option bool) (below : list View).

Definition hasChildren (node : NormalizedPerson) : bool :=
  bool_decide (0 < length (children node))%nat.

Definition effectiveDepth (node : NormalizedPerson) (incomingDepth : Z)
    (overrides : Overrides) : Z :=
  match overrides !! id node with
  | Some collapse => 1
  | Some expand => DEFAULT_DEPTH
  | None => Z.max incomingDepth 1
  end.

Definition showChildren (node : NormalizedPerson) (incomingDepth : Z)
    (overrides : Overrides) : bool :=
  hasChildren node && bool_decide (effectiveDepth node incomingDepth overrides > 1)%Z.

Definition childDepth (node : NormalizedPerson) (incomingDepth : Z)
    (overrides : Overrides) : Z :=
  Z.max (effectiveDepth node incomingDepth overrides - 1) 0.

Fixpoint PersonCard (node : NormalizedPerson) (incomingDepth : Z)
    (overrides : Overrides) : View :=
  let isOpen := showChildren node incomingDepth overrides in
  Card (id node)
    (if hasChildren node then Some isOpen else None)
    (if isOpen
     then map (λ child, PersonCard child (childDepth node incomingDepth overrides) overrides)
            (children node)
     else []).

(** The updater that the [toggle] of a card rendered under [overrides] hands
    to [setOverrides]: [{ ...prev, [node.id]: isOpen ? 'collapse' : 'expand' }]. *)
Definition toggle (node : NormalizedPerson) (incomingDepth : Z)
    (overrides prev : Overrides) : Overrides :=
  <[id node := if showChildren node incomingDepth overrides then collapse else expand]> prev.

(** ** The application state and the load pipeline *)

Definition DEFAULT_PATH : string := "/export/genealogy.json".

(** The [useState] cells of [App]. *)
Record AppState : Type := mkState {
  dataPath : string;
  tree : option NormalizedPerson;
  peopleCount : nat;
  loading : bool;
  error : string;
  overrides : Overrides;
}.

Definition initialState : AppState := mkState DEFAULT_PATH None 0 false "" ∅.

Definition setTree (t : option NormalizedPerson) (st : AppState) : AppState :=
  mkState (dataPath st) t (peopleCount st) (loading st) (error st) (overrides st).
Definition setPeopleCount (n : nat) (st : AppState) : AppState :=
  mkState (dataPath st) (tree st) n (loading st) (error st) (overrides st).
Definition setLoading (b : bool) (st : AppState) : AppState :=
  mkState (dataPath st) (tree st) (peopleCount st) b (error st) (overrides st).
Definition setError (e : string) (st : AppState) : AppState :=
  mkState (dataPath st) (tree st) (peopleCount st) (loading st) e (overrides st).
Definition setOverrides (o : Overrides) (st : AppState) : AppState :=
  mkState (dataPath st) (tree st) (peopleCount st) (loading st) (error st) o.

Definition no_valid_entry : JsError :=
  Error "Aucune entrée valide trouvée dans ce fichier.".
Definition no_root : JsError :=
  Error "Impossible de déterminer la racine (id le plus petit manquant).".
Definition no_tree : JsError :=
  Error "L'arbre n'a pas pu être construit.".

(** The [try] block of [loadFile] from the normalized [people] on: the
    emptiness check, the map, the root, the tree and the three final setters.
    [stack] is the number of frames [buildTree] may use. *)
Definition loadPeople (stack : nat) (people : list NormalizedPerson)
    (st : AppState) : Completion AppState :=
  if decide (length people = 0%nat) then Throw no_valid_entry
  else
    let peopleMap := buildMap people in
    match findRootId peopleMap with
    | None => Throw no_root
    | Some rootId =>
        if falsy_number rootId then Throw no_root
        else
          treeBuilt ← buildTree stack rootId peopleMap (num 1);
          match treeBuilt with
          | None => Throw no_tree
          | Some treeBuilt =>
              Normal (setTree (Some treeBuilt)
                        (setPeopleCount (length people)
                           (setOverrides {[rootId := expand]} st)))
          end
    end.

(** How [fetch(path)] and [response.json()] turn out. *)
Inductive FetchOutcome : Type :=
  | Rejected (reason : JsError)
  | Response (ok : bool) (status : Z) (json : Completion JsValue).

Section Load.
Context `{JsRuntime}.

(** [loadFile(path)], run to completion from the state [st]. *)
Definition loadFile (stack : nat) (path : string) (outcome : FetchOutcome)
    (st : AppState) : AppState :=
  let st := setTree None (setError "" (setLoading true st)) in
  let attempt : Completion AppState :=
    match outcome with
    | Rejected reason => Throw reason
    | Response ok status json =>
        if negb ok
        then Throw (Error ("Impossible d'ouvrir " ++ path ++ " (code "
                             ++ NumberToString (num status) ++ ")."))
        else
          json ← json;
          people ← normalizeDataset json;
          loadPeople stack people st
    end in
  setLoading false
    match attempt with
    | Normal st => st
    | Throw err => setError (message err) st
    end.

(** What changes the state: a load, or a click on a card rendered from the
    current tree with some inherited depth. *)
Inductive Event : Type :=
  | Load (path : string) (outcome : FetchOutcome)
  | Click (node : NormalizedPerson) (incomingDepth : Z).

Definition step (stack : nat) (st : AppState) (ev : Event) : AppState :=
  match ev with
  | Load path outcome => loadFile stack path outcome st
  | Click node incomingDepth =>
      setOverrides (toggle node incomingDepth (overrides st) (overrides st)) st
  end.

End Load.

(** ** The face of a card and the screen of the application *)

(** [parts.join(separator)] on strings. *)
Fixpoint join (separator : string) (parts : list string) : string :=
  match parts with
  | [] => ""
  | x :: rest =>
      match rest with
      | [] => x
      | _ => x ++ separator ++ join separator rest
      end
  end.

(** [parts.filter(Boolean).join(separator)]: the empty strings are left out. *)
Definition filterJoin (separator : string) (parts : list string) : string :=
  join separator (filter (λ part, part ≠ "") parts).

(** [InfoRow]: nothing for an empty value, else the label and the value. *)
Definition InfoRow (label value : string) : option (string * string) :=
  if decide (value = "") then None else Some (label, value).

(** The four [InfoRow]s of a [PersonCard], in their order. *)
Definition infoRows (node : NormalizedPerson) : list (option (string * string)) :=
  [InfoRow "Naissance" (filterJoin " — " [birthDate node; birthPlace node]);
   InfoRow "Union"
     (filterJoin " • "
        [spouse node; filterJoin " — " [unionDate node; unionPlace node]]);
   InfoRow "Descendance"
     (if decide (childrenCount node = "") then "Non précisé"
      else childrenCount node ++ " enfant(s)");
   InfoRow "Décès" (filterJoin " — " [deathDate node; deathPlace node; deathAge node])].

(** The last line of a card. *)
Definition footer (node : NormalizedPerson) (incomingDepth : Z)
    (overrides : Overrides) : string :=
  if hasChildren node
  then if showChildren node incomingDepth overrides
       then "Ouvert sur 4 générations"
       else "Cliquer pour ouvrir 4 générations"
  else "Fin de branche".

Section CardFace.
Context `{JsRuntime}.

(** [badge]: the generation, unless it is [null], 0 or [NaN]. *)
Definition badge (node : NormalizedPerson) : option string :=
  match generation node with
  | Some g => if falsy_number g then None else Some ("Génération " ++ NumberToString g)
  | None => None
  end.

(** The heading of a card: the name, or the identifier when it is empty. *)
Definition heading (node : NormalizedPerson) : string :=
  if decide (name node = "") then "Personne #" ++ NumberToString (id node)
  else name node.

End CardFace.

(** What [App] puts in its [main]. *)
Inductive Screen : Type :=
  | Loader
  | ErrorBox (message : string)
  | EmptyState
  | Tree (root : View).

Definition App (st : AppState) : list Screen :=
  ((if loading st then [Loader] else []) ++
   (if decide (error st = "") then [] else [ErrorBox (error st)]) ++
   (if negb (loading st) && bool_decide (error st = "") && bool_decide (tree st = None)
    then [EmptyState] else []) ++
   (match tree st with
    | Some node =>
        if negb (loading st) && bool_decide (error st = "")
        then [Tree (PersonCard node DEFAULT_DEPTH (overrides st))]
        else []
    | None => []
    end))%list.

(** The effect that [App] runs after a render: it loads the default path the
    first time and marks [initialLoadDone]; the result is the new mark and
    the paths it asked [loadFile] for. *)
Definition initialLoad (initialLoadDone : bool) : bool * list string :=
  if initialLoadDone then (true, []) else (true, [DEFAULT_PATH]).

(** * Vocabulary of the statements *)

(** A blank entity with identifier [k] and stored generation [g]. *)
Definition entity (k : number) (g : option number) : NormalizedPerson :=
  mkPerson k g JNull "" "" "" "" "" "" "" "" "" "" "" [].

(** [buildTree(k, m, g)] returns [r] once the stack is deep enough. *)
Definition returns (m : PeopleMap) (k g : number) (r : option NormalizedPerson) : Prop :=
  ∃ stack, ∀ stack', (stack ≤ stack')%nat → buildTree stack' k m g = Normal r.

(** An integer of magnitude below 2^52: its double and the successor of its
    double are integers that doubles hold exactly. *)
Definition smallInteger (n : number) : Prop :=
  ∃ z : Z, n = num z ∧ (Z.abs z < 2 ^ 52)%Z.

(** A map all of whose identifiers are such integers. *)
Definition integerKeys (m : PeopleMap) : Prop :=
  ∀ k, k ∈ dom m → smallInteger k.

(** Every identifier of the map has two parents: [k * 2 + 1] is not [k * 2]
    again, as it is for the doubles from 2^53 on and the even ones from 2^52
    on, where the two calls of [buildTree] build the same entity twice. *)
Definition distinctParents (m : PeopleMap) : Prop :=
  ∀ k, k ∈ dom m → (k * num 2)%num ≠ (k * num 2 + num 1)%num.

(** An identifier of the ancestor numbering: a positive integer, below 2^52. *)
Definition ahnentafel (n : number) : Prop :=
  ∃ z : Z, n = num z ∧ (0 < z < 2 ^ 52)%Z.

(** The magnitude of the numerator of a finite number: of the number, when
    it is an integer. *)
Definition magnitude (n : number) : Z :=
  match n with
  | Fin q => Z.abs (Qnum q)
  | _ => 0
  end.

(** The keys of the map of magnitude [b] at least. *)
Definition keysBeyond (m : PeopleMap) (b : Z) : gset number :=
  filter (λ key, (b ≤ magnitude key)%Z) (dom m).

(** The nodes of a tree [d] levels below its root. *)
Fixpoint nodesAt (d : nat) (t : NormalizedPerson) : list NormalizedPerson :=
  match d with
  | O => [t]
  | S d => flat_map (nodesAt d) (children t)
  end.

(** The identifiers [d] levels above [k] in the numbering, as the code
    computes them: by [d] steps of [k * 2] and [k * 2 + 1]. *)
Fixpoint keysAt (d : nat) (k : number) : list number :=
  match d with
  | O => [k]
  | S d => keysAt d (k * num 2)%num ++ keysAt d (k * num 2 + num 1)%num
  end.

(** The generation handed down [d] levels below a call made with [g]. *)
Fixpoint counter (g : number) (d : nat) : number :=
  match d with
  | O => g
  | S d => counter (g + num 1)%num d
  end.

(** The identifiers of the cards [d] levels below the top card of a view. *)
Fixpoint cardsAt (d : nat) (v : View) : list number :=
  match d, v with
  | O, Card person _ _ => [person]
  | S d, Card _ _ below => flat_map (cardsAt d) below
  end.

(** The values that [String] and [Number] convert without throwing. *)
Fixpoint convertible (v : JsValue) : bool :=
  match v with
  | JArr items => forallb (λ x, nullish x || convertible x) items
  | JObj fields => negb (has_own_property fields "toString")
  | _ => true
  end.

(** A record every property of which is convertible (anything that is not an
    object has none of the properties read). *)
Definition plainRecord (raw : JsValue) : bool :=
  match raw with
  | JObj fields => forallb (λ kv, convertible kv.2) fields
  | _ => true
  end.

(** The identifier keys, in the order [normalizePerson] tries them. *)
Definition idKeys : list string := ["id"; "ID"; "Id"; "sosa"; "Sosa"].

(** A computation that throws nothing but the failed conversion. *)
Definition safe {A} (c : Completion A) : Prop :=
  match c with
  | Normal _ => True
  | Throw e => e = cannot_convert
  end.

(** The positive integers among the numbers. *)
Definition positiveInteger (n : number) : Prop := ∃ z : Z, (0 < z)%Z ∧ n = num z.

Section FirstOf.
Context `{JsRuntime}.

(** The first of [keys] whose value [parseId] accepts. *)
Definition firstOf (raw : JsValue) (keys : list string) : Completion (option number) :=
  foldr (λ key rest, parseId (OptGet raw key) ?? rest) (Normal None) keys.

(** The error of the transport failure. *)
Definition cannotOpen (path : string) (status : Z) : JsError :=
  Error ("Impossible d'ouvrir " ++ path ++ " (code " ++ NumberToString (num status) ++ ").").

End FirstOf.

(** The identifiers [d] levels above [k] that are present in the map together
    with every identifier on their way down to [k], left to right. *)
Fixpoint presentAt (m : PeopleMap) (d : nat) (k : number) : list number :=
  match d with
  | O => if Map_has m k then [k] else []
  | S d =>
      if Map_has m k
      then (presentAt m d (k * num 2)%num ++ presentAt m d (k * num 2 + num 1)%num)%list
      else []
  end.

(** No identifier that the calls from [k] reach is found again above
    itself: the recursion from [k] goes round no cycle. *)
Definition acyclicFrom (m : PeopleMap) (k : number) : Prop :=
  ∀ d x e, x ∈ presentAt m d k → x ∉ presentAt m (S e) x.

(** A finite positive number. *)
Definition positive (n : number) : Prop := ∃ q : Qc, n = Fin q ∧ (0 < q)%Qc.

(** A flat entity written back as a record under the keys of
    [NormalizedPerson], [generation] being [null] when there is none. *)
Definition toRecord (person : NormalizedPerson) : JsValue :=
  JObj [("id", JNum (id person));
        ("generation", match generation person with Some g => JNum g | None => JNull end);
        ("gender", gender person);
        ("name", JStr (name person));
        ("birthDate", JStr (birthDate person));
        ("birthPlace", JStr (birthPlace person));
        ("spouse", JStr (spouse person));
        ("unionDate", JStr (unionDate person));
        ("unionPlace", JStr (unionPlace person));
        ("childrenCount", JStr (childrenCount person));
        ("deathDate", JStr (deathDate person));
        ("deathPlace", JStr (deathPlace person));
        ("deathAge", JStr (deathAge person));
        ("job", JStr (job person));
        ("children", JArr [])].

(** The effect of [App] run [n] times in a row from the mark [done]: the
    final mark and all the paths asked for. *)
Fixpoint runInitialLoad (n : nat) (done : bool) : bool * list string :=
  match n with
  | O => (done, [])
  | S n =>
      let '(done', asked) := initialLoad done in
      let '(final, later) := runInitialLoad n done' in
      (final, (asked ++ later)%list)
  end.

(** ** The inputs of the examples *)

(** A runtime to close the examples with: it reads no string as a number and
    writes every number as the empty string; the examples that use it
    convert neither way. *)
Definition sampleRuntime : JsRuntime :=
  {| StringToNumber := λ _, NaN; NumberToString := λ _, "" |}.

(** The entities [{1,2,3,4,5}] of the tree-shape example. *)
Definition oneToFive : PeopleMap :=
  buildMap ((λ k, entity (num k) None) <$> [1; 2; 3; 4; 5]%Z).

(** The entities [{2.5, 5, 6}]: an identifier that is no integer, and its
    two parents. *)
Definition halves : PeopleMap :=
  buildMap [entity (numQ (5 # 2)) None; entity (num 5) None; entity (num 6) None].

(** Two records of identifier 1. *)
Definition twins : list NormalizedPerson :=
  [mkPerson (num 1) None JNull "A" "" "" "" "" "" "" "" "" "" "" [];
   mkPerson (num 1) None JNull "B" "" "" "" "" "" "" "" "" "" "" []].

(** The chain 1, 2, 4, 8, 16 of five generations, as [buildTree] gives it. *)
Definition chainOfFive : NormalizedPerson :=
  treeNode (entity (num 1) None) (num 1)
    [treeNode (entity (num 2) None) (num 2)
       [treeNode (entity (num 4) None) (num 3)
          [treeNode (entity (num 8) None) (num 4)
             [treeNode (entity (num 16) None) (num 5) []]]]].

(** The people 1, 2, 4, 8, 16: five generations in one line. *)
Definition chainPeople : list NormalizedPerson :=
  (λ k, entity (num k) None) <$> [1; 2; 4; 8; 16]%Z.

(** A record whose identifier is an object with a [toString] of its own. *)
Definition unconvertibleId : JsValue :=
  JArr [JObj [("id", JObj [("toString", JNum (num 1))])]].

(** * Properties *)

(** ** Numbers *)

Lemma this_inject_Z (z : Z) : this (Q2Qc (inject_Z z)) = inject_Z z.
Proof. cbn. apply Qred_identity. cbn. apply Z.gcd_1_r. Qed.

Lemma num_inj (a b : Z) : num a = num b → a = b.
Proof.
  intros [= Heq]. pose proof (this_inject_Z a) as Ha. pose proof (this_inject_Z b) as Hb.
  cbn [this Q2Qc] in Ha, Hb. rewrite Ha, Hb in Heq. by injection Heq.
Qed.

Lemma magnitude_num (z : Z) : magnitude (num z) = Z.abs z.
Proof. unfold magnitude, num. by rewrite this_inject_Z. Qed.

Lemma nearestEven_exact (n d : Z) : (0 < d)%Z → nearestEven (n * d) d = n.
Proof.
  intros Hd. unfold nearestEven.
  rewrite Z.mod_mul, Z.div_mul by lia.
  destruct (Z.compare_spec (2 * 0) d); lia.
Qed.

(** The integers of magnitude up to 2^53 are doubles. *)
Lemma round64_integer (z : Z) : (Z.abs z ≤ 2 ^ 53)%Z → round64 (Q2Qc (inject_Z z)) = num z.
Proof.
  intros Hz. unfold round64. rewrite this_inject_Z. cbn [Qnum Qden inject_Z].
  destruct (Z.eqb_spec (Z.abs z) 0) as [H0|H0].
  { assert (z = 0%Z) as -> by lia. reflexivity. }
  remember (Z.abs z) as n eqn:En.
  assert (Hn : (0 < n)%Z) by lia.
  pose proof (Z.log2_spec n Hn) as [Hlo Hhi].
  pose proof (Z.log2_nonneg n) as Hl.
  assert (HL : (Z.log2 n ≤ 53)%Z).
  { rewrite <- (Z.log2_pow2 53) by lia. apply Z.log2_le_mono. exact Hz. }
  assert (Hlog : log2Q n 1 = Z.log2 n).
  { unfold log2Q. change (Z.log2 1) with 0%Z. rewrite Z.sub_0_r.
    rewrite Z.max_r by lia. rewrite Z.max_l by lia.
    change (2 ^ 0)%Z with 1%Z. rewrite Z.mul_1_l, Z.mul_1_r.
    destruct (Z.leb_spec (2 ^ Z.log2 n) n); [reflexivity|lia]. }
  unfold ulpExponent. rewrite Hlog.
  rewrite (Z.max_l (Z.log2 n - 52) (-1074)) by lia.
  set (e := (Z.log2 n - 52)%Z).
  assert (He : (e ≤ 0 ∨ e = 1)%Z) by lia.
  assert (Hm : (nearestEven (n * 2 ^ Z.max 0 (- e)) (1 * 2 ^ Z.max 0 e) * 2 ^ Z.max 0 e
                = n * 2 ^ Z.max 0 (- e))%Z).
  { destruct He as [He|He].
    - rewrite (Z.max_l 0 e) by lia. change (2 ^ 0)%Z with 1%Z.
      rewrite <- (Z.mul_1_r (n * _)) at 1. rewrite nearestEven_exact by lia. lia.
    - assert (Z.log2 n = 53%Z) as H53 by lia.
      assert (n = 2 ^ 53)%Z as Hn53 by (rewrite H53 in Hlo; lia).
      rewrite He, Hn53. vm_compute. reflexivity. }
  assert (Hpos : (0 < 2 ^ Z.max 0 (- e))%Z) by (apply Z.pow_pos_nonneg; lia).
  destruct (Z.leb_spec (2 ^ 1024 * 2 ^ Z.max 0 (- e))
              (nearestEven (n * 2 ^ Z.max 0 (- e)) (1 * 2 ^ Z.max 0 e) * 2 ^ Z.max 0 e)%Z)
    as [Hov|_].
  { rewrite Hm in Hov. assert (2 ^ 53 < 2 ^ 1024)%Z by (vm_compute; reflexivity). nia. }
  unfold num. f_equal. apply Qc_is_canon. cbn [this Q2Qc].
  rewrite !Qred_correct. unfold Qeq. cbn [Qnum Qden inject_Z].
  rewrite Z2Pos.id by lia.
  rewrite Z.mul_1_r, <- (Z.mul_assoc (Z.sgn z)), Hm. subst n.
  rewrite Z.mul_assoc, (Z.mul_comm (Z.sgn z)), Z.abs_sgn. reflexivity.
Qed.

(** Doubling an integer of magnitude below 2^52 is exact. *)
Lemma num_double (z : Z) : (Z.abs z < 2 ^ 52)%Z → (num z * num 2)%num = num (2 * z).
Proof.
  intros Hz. unfold num_mul, num.
  replace (Q2Qc (inject_Z z) * Q2Qc (inject_Z 2))%Qc with (Q2Qc (inject_Z (2 * z))).
  - apply round64_integer. lia.
  - apply Qc_is_canon. cbn. rewrite !Qred_correct. unfold Qeq, inject_Z. cbn. lia.
Qed.

(** So is adding one, up to 2^53. *)
Lemma num_succ (z : Z) : (Z.abs (z + 1) ≤ 2 ^ 53)%Z → (num z + num 1)%num = num (z + 1).
Proof.
  intros Hz. unfold num_add, num.
  replace (Q2Qc (inject_Z z) + Q2Qc (inject_Z 1))%Qc with (Q2Qc (inject_Z (z + 1))).
  - apply round64_integer. lia.
  - apply Qc_is_canon. cbn. rewrite !Qred_correct. unfold Qeq, inject_Z. cbn. lia.
Qed.

(** From 2^52 on, [k * 2 + 1] is no longer [2k + 1]: it is [2k + 2] for
    [k = 2^52 + 1], and [2k], the left parent again, for [k = 2^52] and for
    [k = 2^53]. *)
Lemma right_parent_rounded :
  (num (2 ^ 52 + 1) * num 2 + num 1)%num = num (2 * (2 ^ 52 + 1) + 2) ∧
  (num (2 ^ 52) * num 2 + num 1)%num = (num (2 ^ 52) * num 2)%num ∧
  (num (2 ^ 53) * num 2 + num 1)%num = (num (2 ^ 53) * num 2)%num.
Proof. repeat split; vm_compute; reflexivity. Qed.

(** ** The keyed map *)

Lemma buildMap_snoc people person :
  buildMap (people ++ [person]) = <[id person := withoutChildren person]> (buildMap people).
Proof. unfold buildMap. by rewrite foldl_snoc. Qed.

(** Last write wins. *)
Lemma buildMap_lookup people k :
  buildMap people !! k = withoutChildren <$> last (filter (λ p, id p = k) people).
Proof.
  induction people as [|person people IH] using rev_ind; [done|].
  rewrite buildMap_snoc, filter_app, lookup_insert.
  rewrite filter_cons, filter_nil. case_decide as Hk.
  - by rewrite last_snoc.
  - by rewrite app_nil_r.
Qed.

Lemma buildMap_dom people : dom (buildMap people) = list_to_set (id <$> people).
Proof.
  induction people as [|person people IH] using rev_ind; [set_solver|].
  rewrite buildMap_snoc, dom_insert_L, IH, fmap_app, list_to_set_app_L. set_solver.
Qed.

Lemma buildMap_size people : size (buildMap people) = length (remove_dups (id <$> people)).
Proof.
  rewrite <- size_dom, buildMap_dom.
  rewrite <- (size_list_to_set (C := gset number) (remove_dups (id <$> people)))
    by apply NoDup_remove_dups.
  f_equal. apply set_eq. intros x.
  by rewrite !elem_of_list_to_set, elem_of_remove_dups.
Qed.

(** Every entity of the map sits under its own identifier, without children. *)
Lemma buildMap_entity people k node :
  buildMap people !! k = Some node → id node = k ∧ children node = [].
Proof.
  rewrite buildMap_lookup. intros (person & Hlast & ->)%fmap_Some.
  split; [|done]. apply last_Some_elem_of, list_elem_of_filter in Hlast as [Hid _]. done.
Qed.

(** ** The tree builder *)

(** The only exception [buildTree] raises is the exhausted stack. *)
Lemma buildTree_throws stack : ∀ k m g e,
  buildTree stack k m g = Throw e → e = stack_overflow.
Proof.
  induction stack as [|stack IH]; intros k m g e; cbn [buildTree].
  - congruence.
  - destruct (m !! k) as [node|]; [|discriminate].
    destruct (Map_has m (k * num 2)%num).
    + destruct (buildTree stack (k * num 2)%num m (g + num 1)%num) as [l|el] eqn:Hl;
        cbn; [|apply IH in Hl; congruence].
      destruct (Map_has m (k * num 2 + num 1)%num); cbn; [|discriminate].
      destruct (buildTree stack (k * num 2 + num 1)%num m (g + num 1)%num) as [r|er] eqn:Hr;
        cbn; [discriminate|apply IH in Hr; congruence].
    + cbn. destruct (Map_has m (k * num 2 + num 1)%num); cbn; [|discriminate].
      destruct (buildTree stack (k * num 2 + num 1)%num m (g + num 1)%num) as [r|er] eqn:Hr;
        cbn; [discriminate|apply IH in Hr; congruence].
Qed.

(** A result reached with some stack is reached with any deeper one. *)
Lemma buildTree_mono stack : ∀ stack' k m g r,
  buildTree stack k m g = Normal r → (stack ≤ stack')%nat →
  buildTree stack' k m g = Normal r.
Proof.
  induction stack as [|stack IH]; intros stack' k m g r; cbn [buildTree].
  - discriminate.
  - intros Hr Hle. destruct stack' as [|stack']; [lia|]. cbn [buildTree].
    destruct (m !! k) as [node|]; [|done].
    destruct (Map_has m (k * num 2)%num), (Map_has m (k * num 2 + num 1)%num).
    + destruct (buildTree stack (k * num 2)%num m _) as [l|] eqn:Hl; [|done].
      destruct (buildTree stack (k * num 2 + num 1)%num m _) as [r'|] eqn:Hr'; [|done].
      rewrite (IH stack' _ _ _ _ Hl), (IH stack' _ _ _ _ Hr') by lia. done.
    + destruct (buildTree stack (k * num 2)%num m _) as [l|] eqn:Hl; [|done].
      rewrite (IH stack' _ _ _ _ Hl) by lia. done.
    + destruct (buildTree stack (k * num 2 + num 1)%num m _) as [r'|] eqn:Hr'; [|done].
      rewrite (IH stack' _ _ _ _ Hr') by lia. done.
    + done.
Qed.

Lemma Map_has_true (m : PeopleMap) k : Map_has m k = true ↔ is_Some (m !! k).
Proof. unfold Map_has. apply bool_decide_eq_true. Qed.

Lemma Map_has_false (m : PeopleMap) k : Map_has m k = false ↔ m !! k = None.
Proof. unfold Map_has. rewrite bool_decide_eq_false. symmetry. apply eq_None_not_Some. Qed.

Lemma bind_Normal {A B} (c : Completion A) (f : A → Completion B) y :
  c ≫= f = Normal y → ∃ x, c = Normal x ∧ f x = Normal y.
Proof. destruct c as [x|e]; cbn; [by exists x|done]. Qed.

Lemma presentAt_absent (m : PeopleMap) d k : Map_has m k = false → presentAt m d k = [].
Proof. intros Hk. destruct d; cbn; by rewrite Hk. Qed.

(** What is present [d2] levels above an identifier present [d1] levels
    above [k] is present [d1 + d2] levels above [k]. *)
Lemma presentAt_app (m : PeopleMap) d1 : ∀ d2 k x y,
  x ∈ presentAt m d1 k → y ∈ presentAt m d2 x → y ∈ presentAt m (d1 + d2) k.
Proof.
  induction d1 as [|d1 IH]; intros d2 k x y; cbn [presentAt Nat.add].
  - destruct (Map_has m k); [|by intros ?%elem_of_nil].
    by intros ->%list_elem_of_singleton.
  - destruct (Map_has m k); [|by intros ?%elem_of_nil].
    intros [Hx|Hx]%elem_of_app Hy; apply elem_of_app; [left|right]; by eapply IH.
Qed.

(** A call that returns has used a frame for every level of the numbering
    that it found present. *)
Lemma presentAt_stack stack : ∀ (m : PeopleMap) d k g r,
  buildTree stack k m g = Normal r → presentAt m d k ≠ [] → (d < stack)%nat.
Proof.
  induction stack as [|stack IH]; intros m d k g r; cbn [buildTree]; [done|].
  destruct d as [|d]; [lia|]. cbn [presentAt].
  destruct (m !! k) as [node|] eqn:Hnode.
  - rewrite (proj2 (Map_has_true m k)) by eauto.
    intros (left & Hleft & (right & Hright & _)%bind_Normal)%bind_Normal Hpresent.
    destruct (presentAt m d (k * num 2)%num) as [|x xs] eqn:Hl.
    + destruct (Map_has m (k * num 2 + num 1)%num) eqn:Hhr.
      * apply IH with (d := d) in Hright; [lia|]. by destruct (presentAt m d _).
      * rewrite presentAt_absent in Hpresent by done. done.
    + destruct (Map_has m (k * num 2)%num) eqn:Hhl.
      * apply IH with (d := d) in Hleft; [lia|]. by rewrite Hl.
      * rewrite presentAt_absent in Hl by done. done.
  - rewrite (proj2 (Map_has_false m k)) by done. done.
Qed.

(** A call that returns has gone round no cycle. *)
Lemma returning_acyclic stack (m : PeopleMap) k g r :
  buildTree stack k m g = Normal r → acyclicFrom m k.
Proof.
  intros Hr d x e Hx Hcycle.
  assert (∀ n, x ∈ presentAt m (n * S e) x) as Hround.
  { induction n as [|n IHn].
    - cbn [Nat.mul presentAt]. destruct (Map_has m x) eqn:Hhas; [by left|].
      rewrite presentAt_absent in Hcycle by done. by apply elem_of_nil in Hcycle.
    - cbn [Nat.mul]. eapply presentAt_app; [exact Hcycle|exact IHn]. }
  pose proof (presentAt_app m d (stack * S e) k x x Hx (Hround stack)) as Hfar.
  assert (d + stack * S e < stack)%nat; [|nia].
  eapply presentAt_stack; [exact Hr|]. intros Hnil. rewrite Hnil in Hfar.
  by apply elem_of_nil in Hfar.
Qed.

(** An identifier from which [buildTree] returns is not found again above
    itself. *)
Lemma presentAt_above stack (m : PeopleMap) d k g r :
  buildTree stack k m g = Normal r → k ∉ presentAt m (S d) k.
Proof.
  intros Hr Hk. apply (returning_acyclic _ _ _ _ _ Hr 0%nat k d); [|exact Hk].
  cbn [presentAt]. destruct (Map_has m k) eqn:Hhas; [by left|].
  rewrite presentAt_absent in Hk by done. by apply elem_of_nil in Hk.
Qed.

(** Without a cycle the calls on a path are on distinct keys, so a stack
    deeper than the number of keys not yet on the path suffices. *)
Lemma acyclic_returns stack : ∀ (m : PeopleMap) (seen : gset number) k g,
  acyclicFrom m k →
  (∀ a, a ∈ seen → a ∈ dom m ∧ ∃ e, k ∈ presentAt m (S e) a) →
  (size (dom m ∖ seen) < stack)%nat →
  ∃ r, buildTree stack k m g = Normal r.
Proof.
  induction stack as [|stack IH]; intros m seen k g Hacyclic Hseen Hsize; [lia|].
  cbn [buildTree]. destruct (m !! k) as [node|] eqn:Hnode; [|by eexists].
  assert (Map_has m k = true) as Hhas by (apply Map_has_true; eauto).
  assert (k ∉ seen) as Hfresh.
  { intros [_ [e He]]%Hseen. apply (Hacyclic 0%nat k e); [|exact He].
    cbn [presentAt]. rewrite Hhas. by left. }
  assert (∀ c, c ∈ presentAt m 1 k →
            ∃ r, buildTree stack c m (g + num 1)%num = Normal r) as Hchild.
  { intros c Hc. apply (IH m ({[k]} ∪ seen)).
    - intros d x e Hx. apply (Hacyclic (1 + d)%nat). by eapply presentAt_app.
    - intros a [->%elem_of_singleton|Ha]%elem_of_union.
      + split; [apply elem_of_dom; eauto|]. by exists 0%nat.
      + destruct (Hseen a Ha) as [Hdom [e He]]. split; [done|]. exists (S e).
        replace (S (S e)) with (S e + 1)%nat by lia. by eapply presentAt_app.
    - assert (size (dom m ∖ ({[k]} ∪ seen)) < size (dom m ∖ seen))%nat; [|lia].
      apply subset_size. split; [set_solver|]. intros Hsub.
      assert (k ∈ dom m ∖ ({[k]} ∪ seen)) as Hk; [|set_solver].
      apply Hsub, elem_of_difference. split; [apply elem_of_dom; eauto|done]. }
  cbn [presentAt] in Hchild. rewrite Hhas in Hchild.
  destruct (Map_has m (k * num 2)%num) eqn:Hl;
    destruct (Map_has m (k * num 2 + num 1)%num) eqn:Hr.
  - destruct (Hchild (k * num 2)%num) as [l ->]; [set_solver|].
    destruct (Hchild (k * num 2 + num 1)%num) as [r ->]; [set_solver|]. by eexists.
  - destruct (Hchild (k * num 2)%num) as [l ->]; [set_solver|]. by eexists.
  - destruct (Hchild (k * num 2 + num 1)%num) as [r ->]; [set_solver|]. by eexists.
  - by eexists.
Qed.

Lemma keysBeyond_shrinks (m : PeopleMap) (z b : Z) :
  is_Some (m !! num z) → (Z.abs z < b)%Z →
  (size (keysBeyond m b) < size (keysBeyond m (Z.abs z)))%nat.
Proof.
  intros Hin Hlt. apply subset_size. unfold keysBeyond. split.
  - intros x [Hle Hx]%elem_of_filter. apply elem_of_filter. split; [lia|done].
  - intros Hsub.
    assert (num z ∈ filter (λ key, (b ≤ magnitude key)%Z) (dom m)) as [Hle _]%elem_of_filter.
    { apply Hsub, elem_of_filter. split; [rewrite magnitude_num; lia|by apply elem_of_dom]. }
    rewrite magnitude_num in Hle. lia.
Qed.

Lemma keysBeyond_size (m : PeopleMap) (b : Z) : (size (keysBeyond m b) ≤ size m)%nat.
Proof.
  rewrite <- size_dom. apply subseteq_size. unfold keysBeyond.
  intros x [_ Hx]%elem_of_filter. done.
Qed.

(** A key of a map of integer identifiers is such an integer. *)
Lemma integerKeys_lookup (m : PeopleMap) (z : Z) :
  integerKeys m → is_Some (m !! num z) → (Z.abs z < 2 ^ 52)%Z.
Proof.
  intros Hkeys Hin. destruct (Hkeys (num z)) as (z' & Heq & Hz'); [by apply elem_of_dom|].
  apply num_inj in Heq as ->. exact Hz'.
Qed.

(** In a map of integer identifiers and from an identifier other than 0 and
    -1, the identifiers visited move away from zero, so a stack deeper than
    the number of keys at least as far from zero always suffices. *)
Lemma buildTree_returns stack : ∀ (m : PeopleMap) (z : Z) g,
  integerKeys m → z ≠ 0%Z → z ≠ (-1)%Z →
  (size (keysBeyond m (Z.abs z)) < stack)%nat →
  ∃ r, buildTree stack (num z) m g = Normal r.
Proof.
  induction stack as [|stack IH]; intros m z g Hkeys Hz0 Hz1 Hsize; [lia|].
  cbn [buildTree]. destruct (m !! num z) as [node|] eqn:Hnode; [|by eexists].
  pose proof (integerKeys_lookup m z Hkeys (mk_is_Some _ _ Hnode)) as Hsmall.
  assert (∀ z', (Z.abs z < Z.abs z')%Z → z' ≠ 0%Z → z' ≠ (-1)%Z → ∀ g',
            ∃ r, buildTree stack (num z') m g' = Normal r) as Hsub.
  { intros z' Hlt Hz0' Hz1' g'. apply IH; [done..|].
    pose proof (keysBeyond_shrinks m z _ (mk_is_Some _ _ Hnode) Hlt). lia. }
  rewrite (num_double z Hsmall), (num_succ (2 * z)) by lia.
  destruct (Hsub (2 * z)%Z ltac:(lia) ltac:(lia) ltac:(lia) (g + num 1)%num) as [l ->].
  destruct (Hsub (2 * z + 1)%Z ltac:(lia) ltac:(lia) ltac:(lia) (g + num 1)%num) as [r ->].
  destruct (Map_has m _), (Map_has m _); cbn; by eexists.
Qed.

Lemma returns_intro stack m k g r : buildTree stack k m g = Normal r → returns m k g r.
Proof. intros Hr. exists stack. intros stack' Hle. by eapply buildTree_mono. Qed.

Lemma buildTree_absent stack (m : PeopleMap) k g :
  m !! k = None → buildTree (S stack) k m g = Normal None.
Proof. intros Hk. cbn [buildTree]. by rewrite Hk. Qed.

Lemma buildTree_present stack (m : PeopleMap) k g r :
  is_Some (m !! k) → buildTree stack k m g = Normal r → is_Some r.
Proof.
  intros [node Hnode]. destruct stack as [|stack]; cbn [buildTree]; [done|].
  rewrite Hnode.
  destruct (if Map_has m (k * num 2)%num then _ else _) as [l|]; cbn; [|done].
  destruct (if Map_has m (k * num 2 + num 1)%num then _ else _) as [r'|]; cbn; [|done].
  intros [= <-]. done.
Qed.

(** The unfolding of a call on a present key, in terms of the results of the
    calls on [2k] and [2k+1] (made or not: on an absent key the call would
    return [null] as well). *)
Lemma buildTree_node stack (m : PeopleMap) k g node left right :
  m !! k = Some node →
  buildTree stack (k * num 2)%num m (g + num 1)%num = Normal left →
  buildTree stack (k * num 2 + num 1)%num m (g + num 1)%num = Normal right →
  buildTree (S stack) k m g = Normal (Some (treeNode node g (filterBoolean [left; right]))).
Proof.
  intros Hnode Hl Hr. cbn [buildTree]. rewrite Hnode, Hl, Hr.
  assert (∀ key r, buildTree stack key m (g + num 1)%num = Normal r →
            Map_has m key = false → r = None) as Hnone.
  { intros key r Hkey Habs%Map_has_false. destruct stack as [|stack]; [done|].
    rewrite buildTree_absent in Hkey by done. congruence. }
  destruct (Map_has m (k * num 2)%num) eqn:Hhl, (Map_has m (k * num 2 + num 1)%num) eqn:Hhr;
    cbn; try rewrite (Hnone _ _ Hl Hhl); try rewrite (Hnone _ _ Hr Hhr); done.
Qed.

(** A key that is its own left parent, or its own right parent, is built
    again and again until the stack is exhausted. *)
Lemma buildTree_left_cycle (m : PeopleMap) k node :
  m !! k = Some node → (k * num 2)%num = k →
  ∀ stack g, buildTree stack k m g = Throw stack_overflow.
Proof.
  intros Hnode Hk. induction stack as [|stack IH]; intros g; cbn [buildTree]; [done|].
  rewrite Hnode, Hk. rewrite (proj2 (Map_has_true m k)) by eauto. by rewrite IH.
Qed.

Lemma buildTree_right_cycle (m : PeopleMap) k node :
  m !! k = Some node → (k * num 2 + num 1)%num = k →
  ∀ stack g, buildTree stack k m g = Throw stack_overflow.
Proof.
  intros Hnode Hk. induction stack as [|stack IH]; intros g; cbn [buildTree]; [done|].
  rewrite Hnode, Hk. rewrite (proj2 (Map_has_true m k)) by eauto. rewrite IH.
  destruct (Map_has m (k * num 2)%num); [|done].
  destruct (buildTree stack (k * num 2)%num m (g + num 1)%num) as [l|e] eqn:Hl; [done|].
  apply buildTree_throws in Hl as ->. done.
Qed.

Lemma filterBoolean_length {A} (l : list (option A)) :
  (length (filterBoolean l) ≤ length l)%nat.
Proof. induction l as [|[x|] l IH]; cbn; lia. Qed.

(** C1, on the map [{0}]: identifier 0 is present and is its own left
    parent, so [buildTree(0)] returns no node with any stack; it ends in the
    [RangeError] of the exhausted stack. *)
Lemma buildTree_zero_never_returns :
  buildMap [entity (num 0) None] !! num 0 = Some (entity (num 0) None) ∧
  ¬ ∃ stack r, buildTree stack (num 0) (buildMap [entity (num 0) None]) (num 1) = Normal r.
Proof.
  assert (buildMap [entity (num 0) None] !! num 0 = Some (entity (num 0) None)) as Hnode
    by (vm_compute; reflexivity).
  split; [done|]. intros (stack & r & Hr).
  rewrite (buildTree_left_cycle _ _ _ Hnode) in Hr; [done|].
  vm_compute. reflexivity.
Qed.

Lemma presentAt_child (m : PeopleMap) k c d x :
  is_Some (m !! k) → c = (k * num 2)%num ∨ c = (k * num 2 + num 1)%num →
  x ∈ presentAt m d c → x ∈ presentAt m (S d) k.
Proof.
  intros Hk Hc Hx. cbn [presentAt]. rewrite (proj2 (Map_has_true m k)) by done.
  apply elem_of_app. destruct Hc as [-> | ->]; [by left|by right].
Qed.

Lemma acyclicFrom_child (m : PeopleMap) k c :
  is_Some (m !! k) → c = (k * num 2)%num ∨ c = (k * num 2 + num 1)%num →
  acyclicFrom m k → acyclicFrom m c.
Proof.
  intros Hk Hc Hacyclic d x e Hx. apply (Hacyclic (S d)). by eapply presentAt_child.
Qed.

(** With no cycle ahead, a stack deeper than the map is large suffices. *)
Lemma acyclicFrom_returns (m : PeopleMap) k g stack :
  acyclicFrom m k → (size m < stack)%nat → ∃ r, buildTree stack k m g = Normal r.
Proof.
  intros Hacyclic Hstack. apply (acyclic_returns stack m ∅); [done|set_solver|].
  rewrite difference_empty_L, size_dom. exact Hstack.
Qed.

(** A map of integer identifiers has no cycle ahead of an identifier other
    than 0 and -1. *)
Lemma integerKeys_acyclic (m : PeopleMap) (z : Z) :
  integerKeys m → z ≠ 0%Z → z ≠ (-1)%Z → acyclicFrom m (num z).
Proof.
  intros Hkeys Hz0 Hz1.
  destruct (buildTree_returns (S (size m)) m z (num 1) Hkeys Hz0 Hz1) as [r Hr].
  { pose proof (keysBeyond_size m (Z.abs z)). lia. }
  by eapply returning_acyclic.
Qed.

(** A map of integer identifiers gives each of them two parents. *)
Lemma integerKeys_distinctParents (m : PeopleMap) : integerKeys m → distinctParents m.
Proof.
  intros Hkeys k (z & -> & Hz)%Hkeys.
  rewrite (num_double z Hz), (num_succ (2 * z)) by lia. intros Heq%num_inj. lia.
Qed.

(** C1 (amended to the identifiers with no cycle ahead, and to what [k * 2 + 1]
    is on doubles): for every map whose identifiers have two distinct
    parents each, and every identifier [k] present in it from which the
    calls reach no identifier that is found again above itself,
    [buildTree(k)] returns the entity's node whose children are the results
    of [buildTree(k * 2)] and [buildTree(k * 2 + 1)], two distinct
    identifiers, left before right, without the [null] ones; a result is
    [null] exactly when its identifier is absent, whatever the other one
    is, so a node has at most two children.  A map whose identifiers are
    integers of magnitude below 2^52 is such a map, with no cycle ahead of
    any identifier [k] other than 0 and -1, and there [k * 2] and
    [k * 2 + 1] are the integers [2k] and [2k+1].  On [{1,2,3,4,5}] the tree
    rooted at 1 has children 2 and 3, node 2 has children 4 and 5, node 3
    has none. *)
Theorem buildTree_children :
  (∀ (m : PeopleMap) k g node,
     m !! k = Some node → distinctParents m → acyclicFrom m k →
     (k * num 2)%num ≠ (k * num 2 + num 1)%num ∧
     ∃ left right,
       returns m (k * num 2)%num (g + num 1)%num left ∧
       returns m (k * num 2 + num 1)%num (g + num 1)%num right ∧
       returns m k g (Some (treeNode node g (filterBoolean [left; right]))) ∧
       (left = None ↔ m !! (k * num 2)%num = None) ∧
       (right = None ↔ m !! (k * num 2 + num 1)%num = None) ∧
       (length (filterBoolean [left; right]) ≤ 2)%nat) ∧
  (∀ (m : PeopleMap) (z : Z),
     integerKeys m → z ≠ 0%Z → z ≠ (-1)%Z → is_Some (m !! num z) →
     distinctParents m ∧
     acyclicFrom m (num z) ∧
     (num z * num 2)%num = num (2 * z) ∧
     (num z * num 2 + num 1)%num = num (2 * z + 1)) ∧
  returns oneToFive (num 1) (num 1)
    (Some (treeNode (entity (num 1) None) (num 1)
       [treeNode (entity (num 2) None) (num 2)
          [treeNode (entity (num 4) None) (num 3) [];
           treeNode (entity (num 5) None) (num 3) []];
        treeNode (entity (num 3) None) (num 2) []])).
Proof.
  split; [|split].
  - intros m k g node Hnode Hdistinct Hacyclic.
    split; [apply Hdistinct, elem_of_dom; eauto|].
    destruct (acyclicFrom_returns m (k * num 2)%num (g + num 1)%num (S (size m)))
      as [left Hleft]; [|lia|].
    { eapply acyclicFrom_child; [|by left|done]. eauto. }
    destruct (acyclicFrom_returns m (k * num 2 + num 1)%num (g + num 1)%num (S (size m)))
      as [right Hright]; [|lia|].
    { eapply acyclicFrom_child; [|by right|done]. eauto. }
    exists left, right. split; [|split; [|split; [|split; [|split]]]].
    + by eapply returns_intro.
    + by eapply returns_intro.
    + eapply returns_intro. by apply buildTree_node.
    + split.
      * intros ->. destruct (m !! (k * num 2)%num) eqn:Hk; [|done].
        by destruct (buildTree_present _ _ _ _ _ (mk_is_Some _ _ Hk) Hleft).
      * intros Hk. rewrite buildTree_absent in Hleft by done. congruence.
    + split.
      * intros ->. destruct (m !! (k * num 2 + num 1)%num) eqn:Hk; [|done].
        by destruct (buildTree_present _ _ _ _ _ (mk_is_Some _ _ Hk) Hright).
      * intros Hk. rewrite buildTree_absent in Hright by done. congruence.
    + apply (filterBoolean_length [left; right]).
  - intros m z Hkeys Hz0 Hz1 Hin.
    pose proof (integerKeys_lookup m z Hkeys Hin) as Hsmall.
    split; [by apply integerKeys_distinctParents|].
    split; [by apply integerKeys_acyclic|]. split; [by apply num_double|].
    rewrite num_double by done. apply num_succ. lia.
  - apply (returns_intro 3). vm_compute. reflexivity.
Qed.

Lemma oneToFive_integerKeys : integerKeys oneToFive.
Proof.
  intros k Hk. unfold oneToFive in Hk. rewrite buildMap_dom in Hk.
  apply elem_of_list_to_set in Hk. cbn in Hk.
  repeat (apply elem_of_cons in Hk as [->|Hk]; [eexists; split; [reflexivity|lia]|]).
  by apply elem_of_nil in Hk.
Qed.

Lemma halves_distinctParents : distinctParents halves.
Proof.
  intros k Hk. unfold halves in Hk. rewrite buildMap_dom in Hk.
  apply elem_of_list_to_set in Hk. cbn in Hk.
  repeat (apply elem_of_cons in Hk as [->|Hk]; [vm_compute; intros [=]|]).
  by apply elem_of_nil in Hk.
Qed.

Lemma halves_acyclic : acyclicFrom halves (numQ (5 # 2)).
Proof.
  apply (returning_acyclic 2 halves (numQ (5 # 2)) (num 1)
           (Some (treeNode (entity (numQ (5 # 2)) None) (num 1)
                    [treeNode (entity (num 5) None) (num 2) [];
                     treeNode (entity (num 6) None) (num 2) []]))).
  vm_compute. reflexivity.
Qed.

(** [buildTree_children] at node 2 of [{1,2,3,4,5}], and at the root of
    [{2.5, 5, 6}]. *)
Lemma buildTree_children_witness :
  (halves !! numQ (5 # 2) = Some (entity (numQ (5 # 2)) None) ∧
   distinctParents halves ∧
   acyclicFrom halves (numQ (5 # 2)) ∧
   (numQ (5 # 2) * num 2)%num = num 5 ∧
   (numQ (5 # 2) * num 2 + num 1)%num = num 6 ∧
   ∃ left right,
     returns halves (numQ (5 # 2) * num 2)%num (num 1 + num 1)%num left ∧
     returns halves (numQ (5 # 2) * num 2 + num 1)%num (num 1 + num 1)%num right ∧
     returns halves (numQ (5 # 2)) (num 1)
       (Some (treeNode (entity (numQ (5 # 2)) None) (num 1) (filterBoolean [left; right]))) ∧
     (left = None ↔ halves !! (numQ (5 # 2) * num 2)%num = None) ∧
     (right = None ↔ halves !! (numQ (5 # 2) * num 2 + num 1)%num = None)) ∧
  integerKeys oneToFive ∧
  oneToFive !! num 2 = Some (entity (num 2) None) ∧
  distinctParents oneToFive ∧
  acyclicFrom oneToFive (num 2) ∧
  (num 2 * num 2)%num = num 4 ∧
  (num 2 * num 2 + num 1)%num = num 5 ∧
  (num 2 * num 2)%num ≠ (num 2 * num 2 + num 1)%num ∧
  ∃ left right,
    returns oneToFive (num 2 * num 2)%num (num 2 + num 1)%num left ∧
    returns oneToFive (num 2 * num 2 + num 1)%num (num 2 + num 1)%num right ∧
    returns oneToFive (num 2) (num 2)
      (Some (treeNode (entity (num 2) None) (num 2) (filterBoolean [left; right]))) ∧
    (left = None ↔ oneToFive !! (num 2 * num 2)%num = None) ∧
    (right = None ↔ oneToFive !! (num 2 * num 2 + num 1)%num = None) ∧
    (length (filterBoolean [left; right]) ≤ 2)%nat.
Proof.
  assert (oneToFive !! num 2 = Some (entity (num 2) None)) as Hnode
    by (vm_compute; reflexivity).
  destruct buildTree_children as (Hchildren & Hinteger & _).
  destruct (Hinteger oneToFive 2%Z oneToFive_integerKeys ltac:(discriminate)
              ltac:(discriminate) (mk_is_Some _ _ Hnode))
    as (Hdistinct & Hacyclic & Hleft & Hright).
  split.
  { assert (halves !! numQ (5 # 2) = Some (entity (numQ (5 # 2)) None)) as Hhalf
      by (vm_compute; reflexivity).
    split; [exact Hhalf|]. split; [exact halves_distinctParents|].
    split; [exact halves_acyclic|].
    split; [vm_compute; reflexivity|]. split; [vm_compute; reflexivity|].
    destruct (Hchildren halves (numQ (5 # 2)) (num 1) _ Hhalf halves_distinctParents
                halves_acyclic) as (_ & left & right & Hl & Hr & Hk & Hln & Hrn & _).
    exists left, right. split; [exact Hl|]. split; [exact Hr|]. split; [exact Hk|].
    split; [exact Hln|exact Hrn]. }
  split; [exact oneToFive_integerKeys|]. split; [exact Hnode|].
  split; [exact Hdistinct|]. split; [exact Hacyclic|].
  split; [exact Hleft|]. split; [exact Hright|].
  exact (Hchildren oneToFive (num 2) (num 2) _ Hnode Hdistinct Hacyclic).
Defined.

(** C2, on the map [{-1}]: identifier -1 is present and [2 * (-1) + 1] is
    -1 again, so the recursion revisits it for ever: no stack is deep enough
    for [buildTree(-1)] to return. *)
Lemma buildTree_minus_one_never_returns :
  buildMap [entity (num (-1)) None] !! num (-1) = Some (entity (num (-1)) None) ∧
  (num (-1) * num 2 + num 1)%num = num (-1) ∧
  ¬ ∃ stack r,
      buildTree stack (num (-1)) (buildMap [entity (num (-1)) None]) (num 1) = Normal r.
Proof.
  assert (buildMap [entity (num (-1)) None] !! num (-1) = Some (entity (num (-1)) None))
    as Hnode by (vm_compute; reflexivity).
  assert ((num (-1) * num 2 + num 1)%num = num (-1)) as Hcycle
    by (vm_compute; reflexivity).
  split; [done|]. split; [done|]. intros (stack & r & Hr).
  by rewrite (buildTree_right_cycle _ _ _ Hnode Hcycle) in Hr.
Qed.

(** C2 (amended to the identifiers with no cycle ahead): in a map whose
    identifiers have two distinct parents each and from an identifier [k]
    present in it, [buildTree] returns a node as soon as the stack is
    deeper than the map is large if the calls from [k] reach no identifier
    that is found again above itself; if they reach one, in any map, it
    exhausts every stack.  A map whose identifiers are integers of magnitude
    below 2^52 is such a map, with no cycle ahead of any identifier [k]
    other than 0 and -1: [k * 2] and [k * 2 + 1] are then the integers [2k]
    and [2k+1], both farther from zero than [k] (above a positive [k], below
    a [k] under -1), so no call comes back to an identifier. *)
Theorem buildTree_terminates :
  (∀ (m : PeopleMap) k g,
     is_Some (m !! k) →
     (distinctParents m → acyclicFrom m k →
      ∀ stack, (size m < stack)%nat → ∃ t, buildTree stack k m g = Normal (Some t)) ∧
     (¬ acyclicFrom m k → ∀ stack, buildTree stack k m g = Throw stack_overflow)) ∧
  (∀ (m : PeopleMap) (z : Z),
     integerKeys m → z ≠ 0%Z → z ≠ (-1)%Z → is_Some (m !! num z) →
     distinctParents m ∧
     (num z * num 2)%num = num (2 * z) ∧
     (num z * num 2 + num 1)%num = num (2 * z + 1) ∧
     (Z.abs z < Z.abs (2 * z))%Z ∧ (Z.abs z < Z.abs (2 * z + 1))%Z ∧
     (0 < z → z < 2 * z < 2 * z + 1)%Z ∧
     (z < -1 → 2 * z < 2 * z + 1 < z)%Z ∧
     acyclicFrom m (num z) ∧
     ∀ g stack, (size m < stack)%nat →
       ∃ t, buildTree stack (num z) m g = Normal (Some t)).
Proof.
  assert (∀ (m : PeopleMap) k g, is_Some (m !! k) → acyclicFrom m k →
            ∀ stack, (size m < stack)%nat →
              ∃ t, buildTree stack k m g = Normal (Some t)) as Hreturns.
  { intros m k g Hin Hacyclic stack Hstack.
    destruct (acyclicFrom_returns m k g stack Hacyclic Hstack) as [r Hr].
    destruct (buildTree_present _ _ _ _ _ Hin Hr) as [t ->]. by exists t. }
  split.
  - intros m k g Hin. split; [intros _; by apply Hreturns|].
    intros Hcycle stack. destruct (buildTree stack k m g) as [r|e] eqn:Hr.
    + destruct Hcycle. by eapply returning_acyclic.
    + by apply buildTree_throws in Hr as ->.
  - intros m z Hkeys Hz0 Hz1 Hin.
    pose proof (integerKeys_lookup m z Hkeys Hin) as Hsmall.
    pose proof (integerKeys_acyclic m z Hkeys Hz0 Hz1) as Hacyclic.
    split; [by apply integerKeys_distinctParents|].
    split; [by apply num_double|].
    split; [rewrite num_double by done; apply num_succ; lia|].
    split; [lia|]. split; [lia|]. split; [lia|]. split; [lia|].
    split; [exact Hacyclic|]. intros g. by apply Hreturns.
Qed.

(** [buildTree_terminates] from the root of [{1,2,3,4,5}], and on [{-1}]. *)
Lemma buildTree_terminates_witness :
  integerKeys oneToFive ∧
  is_Some (oneToFive !! num 1) ∧
  (∀ stack, (size oneToFive < stack)%nat →
     ∃ t, buildTree stack (num 1) oneToFive (num 1) = Normal (Some t)) ∧
  ¬ acyclicFrom (buildMap [entity (num (-1)) None]) (num (-1)) ∧
  ∀ stack,
    buildTree stack (num (-1)) (buildMap [entity (num (-1)) None]) (num 1)
    = Throw stack_overflow.
Proof.
  assert (is_Some (oneToFive !! num 1)) as Hin by (vm_compute; eauto).
  assert (is_Some (buildMap [entity (num (-1)) None] !! num (-1))) as Hminus
    by (vm_compute; eauto).
  assert (¬ acyclicFrom (buildMap [entity (num (-1)) None]) (num (-1))) as Hcycle.
  { intros Hacyclic. apply (Hacyclic 0%nat (num (-1)) 0%nat); vm_compute; by left. }
  destruct buildTree_terminates as [Hgeneral Hinteger].
  split; [exact oneToFive_integerKeys|]. split; [exact Hin|]. split.
  - intros stack. apply (Hinteger oneToFive 1%Z oneToFive_integerKeys
                           ltac:(discriminate) ltac:(discriminate) Hin).
  - split; [exact Hcycle|].
    exact (proj2 (Hgeneral _ (num (-1)) (num 1) Hminus) Hcycle).
Defined.

(** ** Generations *)

Lemma buildTree_inv stack (m : PeopleMap) k g t :
  buildTree stack k m g = Normal (Some t) →
  ∃ stack' node left right,
    stack = S stack' ∧ m !! k = Some node ∧
    t = treeNode node g (filterBoolean [left; right]) ∧
    (left = None ∨ buildTree stack' (k * num 2)%num m (g + num 1)%num = Normal left) ∧
    (right = None ∨
     buildTree stack' (k * num 2 + num 1)%num m (g + num 1)%num = Normal right).
Proof.
  destruct stack as [|stack]; cbn [buildTree]; [done|].
  destruct (m !! k) as [node|]; [|done].
  destruct (if Map_has m (k * num 2)%num then _ else _) as [l|] eqn:Hl; cbn; [|done].
  destruct (if Map_has m (k * num 2 + num 1)%num then _ else _) as [r|] eqn:Hr; cbn;
    [|done].
  intros [= <-]. exists stack, node, l, r. repeat split.
  - destruct (Map_has m (k * num 2)%num); [by right|left; congruence].
  - destruct (Map_has m (k * num 2 + num 1)%num); [by right|left; congruence].
Qed.

Lemma elem_of_filterBoolean {A} (x : A) (l : list (option A)) :
  x ∈ filterBoolean l ↔ Some x ∈ l.
Proof.
  induction l as [|[y|] l IH]; cbn.
  - by rewrite !elem_of_nil.
  - rewrite !elem_of_cons, IH.
    split; (intros [Heq|Hin]; [left; congruence|by right]).
  - rewrite elem_of_cons, IH. split; [by right|]. by intros [Heq|Hin].
Qed.

(** A node [d] levels below the root of a built tree is the copy of the
    entity found under an identifier [d] levels up in the numbering, with
    the generation handed down to that level for a default, and its own
    children. *)
Lemma built_node d : ∀ stack (m : PeopleMap) k g t c,
  buildTree stack k m g = Normal (Some t) → c ∈ nodesAt d t →
  ∃ key node kids, key ∈ keysAt d k ∧ m !! key = Some node ∧
    c = treeNode node (counter g d) kids.
Proof.
  induction d as [|d IH]; intros stack m k g t c Ht Hc;
    destruct (buildTree_inv _ _ _ _ _ Ht)
      as (stack' & node & left & right & -> & Hnode & -> & Hl & Hr).
  - apply list_elem_of_singleton in Hc as ->. exists k, node, (filterBoolean [left; right]).
    split; [apply list_elem_of_singleton; done|]. done.
  - cbn [nodesAt] in Hc. apply list_elem_of_In, in_flat_map in Hc as (child & Hchild & Hc).
    apply list_elem_of_In in Hchild, Hc. cbn [children treeNode] in Hchild.
    apply elem_of_filterBoolean in Hchild.
    apply elem_of_cons in Hchild as [<-|Hchild].
    + destruct Hl as [|Hl]; [done|].
      destruct (IH _ _ _ _ _ _ Hl Hc) as (key & e & kids & Hkey & He & Hgen).
      exists key, e, kids. split; [|done]. cbn [keysAt]. apply elem_of_app. by left.
    + apply list_elem_of_singleton in Hchild as <-. destruct Hr as [|Hr]; [done|].
      destruct (IH _ _ _ _ _ _ Hr Hc) as (key & e & kids & Hkey & He & Hgen).
      exists key, e, kids. split; [|done]. cbn [keysAt]. apply elem_of_app. by right.
Qed.

(** Counted from the 1 of the root call, the generation handed down to level
    [d] is [1 + d], as far as doubles count. *)
Lemma counter_from_one d :
  (Z.of_nat d < 2 ^ 53)%Z → counter (num 1) d = num (1 + Z.of_nat d).
Proof.
  assert (∀ z, (0 ≤ z)%Z → (z + Z.of_nat d ≤ 2 ^ 53)%Z →
            counter (num z) d = num (z + Z.of_nat d)) as Hz.
  { induction d as [|d IH]; intros z Hz Hd; cbn [counter].
    - by rewrite Z.add_0_r.
    - rewrite num_succ, IH by lia. f_equal. lia. }
  intros Hd. apply Hz; lia.
Qed.

(** C4, on [{1 (generation 10), 2}]: the child 2 stores no generation and
    its parent's node has generation 10, yet the child's node gets 2, the
    value counted from the root, and not 10 + 1. *)
Lemma child_generation_ignores_parent_override :
  ∃ parent child,
    buildTree 2 (num 1)
      (buildMap [entity (num 1) (Some (num 10)); entity (num 2) None]) (num 1)
      = Normal (Some parent) ∧
    children parent = [child] ∧
    generation parent = Some (num 10) ∧
    generation child = Some (num 2) ∧
    generation child ≠ Some (num 10 + num 1)%num.
Proof.
  exists (treeNode (entity (num 1) (Some (num 10))) (num 1)
            [treeNode (entity (num 2) None) (num 2) []]),
         (treeNode (entity (num 2) None) (num 2) []).
  repeat split; try (vm_compute; reflexivity).
  vm_compute. intros [=].
Qed.

(** C4 (amended): every node [c] of a tree that [buildTree] returns for a
    call made with generation [g] is the copy of its own entity, the one the
    map holds under the identifier that the numbering gives its place ([d]
    levels up when the node is [d] levels below the root): it has the
    entity's identifier and fields, and its generation is the entity's
    stored one when it has one, and otherwise [g] plus one per level (the
    value handed down the calls, whatever generation the parent node itself
    ended with); the root (level 0) has [g], which is 1 in the call of the
    load. *)
Theorem built_node_generation stack (m : PeopleMap) k g t d c :
  buildTree stack k m g = Normal (Some t) → c ∈ nodesAt d t →
  ∃ key node kids,
    key ∈ keysAt d k ∧ m !! key = Some node ∧
    c = treeNode node (counter g d) kids ∧
    id c = id node ∧
    (∀ stored, generation node = Some stored → generation c = Some stored) ∧
    (generation node = None → generation c = Some (counter g d)).
Proof.
  intros Ht Hc.
  destruct (built_node d _ _ _ _ _ _ Ht Hc) as (key & e & kids & Hkey & He & ->).
  exists key, e, kids. split; [done|]. split; [done|]. split; [done|]. split; [done|].
  cbn [generation treeNode]. split.
  - by intros stored ->.
  - by intros ->.
Qed.

(** [built_node_generation] on the child of the tree of [{1 (generation 10), 2}]. *)
Lemma built_node_generation_witness :
  buildTree 2 (num 1)
    (buildMap [entity (num 1) (Some (num 10)); entity (num 2) None]) (num 1)
    = Normal (Some (treeNode (entity (num 1) (Some (num 10))) (num 1)
                      [treeNode (entity (num 2) None) (num 2) []])) ∧
  ∃ key node kids,
    key ∈ keysAt 1 (num 1) ∧
    buildMap [entity (num 1) (Some (num 10)); entity (num 2) None] !! key = Some node ∧
    treeNode (entity (num 2) None) (num 2) [] = treeNode node (counter (num 1) 1) kids ∧
    id (treeNode (entity (num 2) None) (num 2) []) = id node ∧
    (∀ stored, generation node = Some stored →
       generation (treeNode (entity (num 2) None) (num 2) []) = Some stored) ∧
    (generation node = None →
       generation (treeNode (entity (num 2) None) (num 2) []) = Some (counter (num 1) 1)).
Proof.
  assert (buildTree 2 (num 1)
            (buildMap [entity (num 1) (Some (num 10)); entity (num 2) None]) (num 1)
          = Normal (Some (treeNode (entity (num 1) (Some (num 10))) (num 1)
                            [treeNode (entity (num 2) None) (num 2) []]))) as Ht
    by (vm_compute; reflexivity).
  split; [exact Ht|].
  refine (built_node_generation 2 _ (num 1) (num 1) _ 1 _ Ht _).
  cbn [nodesAt children treeNode flat_map app]. apply list_elem_of_singleton. reflexivity.
Defined.

(** ** Root selection *)

Lemma num_min_finite p (y : number) :
  (y = Infinity false ∨ isFinite y = true) →
  isFinite (num_min (Fin p) y) = true ∧
  (num_min (Fin p) y = Fin p ∨ num_min (Fin p) y = y) ∧
  num_le (num_min (Fin p) y) (Fin p) ∧
  (isFinite y = true → num_le (num_min (Fin p) y) y).
Proof.
  intros [->|Hy].
  - cbn. repeat split; auto using Qcle_refl.
  - destruct y as [| |q]; try discriminate. cbn. case_decide as Hle; cbn.
    + repeat split; auto using Qcle_refl.
    + assert (q ≤ p)%Qc by (apply Qclt_le_weak, Qcnot_le_lt, Hle).
      repeat split; auto using Qcle_refl.
Qed.

Lemma num_le_trans x y z : num_le x y → num_le y z → num_le x z.
Proof.
  destruct x as [|[]|p], y as [|[]|q], z as [|[]|r]; cbn; try done. apply Qcle_trans.
Qed.

(** [Math.min] of finite numbers, at least one, is the least of them. *)
Lemma Math_min_least (l : list number) :
  l ≠ [] → Forall (λ x, isFinite x = true) l →
  Math_min l ∈ l ∧ ∀ x, x ∈ l → num_le (Math_min l) x.
Proof.
  induction l as [|x l IH]; [done|]. intros _ Hfin.
  apply Forall_cons in Hfin as [Hx Hl]. destruct x as [| |p]; try discriminate.
  cbn [Math_min foldr]. fold (Math_min l).
  destruct l as [|y l].
  - cbn. split; [apply list_elem_of_singleton; done|].
    intros x ->%list_elem_of_singleton. cbn. apply Qcle_refl.
  - destruct (IH ltac:(done) Hl) as [Hin Hleast].
    assert (isFinite (Math_min (y :: l)) = true) as Hmin.
    { eapply Forall_forall in Hl; [exact Hl|exact Hin]. }
    destruct (num_min_finite p (Math_min (y :: l)) (or_intror Hmin))
      as (_ & Hwhich & Hlep & Hlem).
    split.
    + destruct Hwhich as [->| ->]; [by left|by right].
    + intros x [->|Hx']%elem_of_cons; [done|].
      eapply num_le_trans; [by apply Hlem|by apply Hleast].
Qed.

Lemma findRootId_None (m : PeopleMap) : findRootId m = None ↔ m = ∅.
Proof.
  unfold findRootId. case_decide as Hsize.
  - by apply map_size_empty_iff in Hsize.
  - split; [by destruct (Map_has m (num 1))|].
    intros ->. by rewrite map_size_empty in Hsize.
Qed.

Lemma findRootId_one (m : PeopleMap) :
  is_Some (m !! num 1) → findRootId m = Some (num 1).
Proof.
  intros Hone. unfold findRootId. case_decide as Hsize.
  - apply map_size_empty_iff in Hsize as ->. by destruct Hone.
  - by rewrite (proj2 (Map_has_true m (num 1))).
Qed.

Lemma findRootId_min (m : PeopleMap) :
  m ≠ ∅ → m !! num 1 = None → (∀ k, k ∈ dom m → isFinite k = true) →
  ∃ root, findRootId m = Some root ∧ root ∈ dom m ∧ ∀ k, k ∈ dom m → num_le root k.
Proof.
  intros Hne Hone Hfin. unfold findRootId. case_decide as Hsize.
  { by apply map_size_empty_iff in Hsize. }
  rewrite (proj2 (Map_has_false m (num 1))) by done.
  destruct (Math_min_least (Map_keys m)) as [Hin Hleast].
  - unfold Map_keys. intros Hnil%elements_empty_inv. apply Hne, dom_empty_inv_L.
    by apply leibniz_equiv.
  - apply Forall_forall. intros k Hk. by apply Hfin, elem_of_elements.
  - unfold Map_keys in *. eexists. split; [done|]. split; [by apply elem_of_elements|].
    intros k Hk. by apply Hleast, elem_of_elements.
Qed.

(** ** The load, from the normalized people on *)

Lemma loadPeople_Normal stack people st st' :
  loadPeople stack people st = Normal st' →
  ∃ rootId treeBuilt,
    findRootId (buildMap people) = Some rootId ∧
    falsy_number rootId = false ∧
    buildTree stack rootId (buildMap people) (num 1) = Normal (Some treeBuilt) ∧
    st' = setTree (Some treeBuilt)
            (setPeopleCount (length people) (setOverrides {[rootId := expand]} st)).
Proof.
  unfold loadPeople. case_decide; [done|].
  destruct (findRootId (buildMap people)) as [rootId|]; [|done].
  destruct (falsy_number rootId) eqn:Hfalsy; [done|].
  destruct (buildTree stack rootId (buildMap people) (num 1)) as [[t|]|e] eqn:Ht; cbn;
    [|done..].
  intros [= <-]. by exists rootId, t.
Qed.

Lemma falsy_finite_number n : isFinite n = true → falsy_number n = true → n = num 0.
Proof.
  destruct n as [| |q]; try discriminate. cbn. intros _ Hq%bool_decide_eq_true.
  subst q. reflexivity.
Qed.

(** The root that [findRootId] selects in a map of finite keys is finite. *)
Lemma findRootId_finite (m : PeopleMap) root :
  (∀ k, k ∈ dom m → isFinite k = true) → findRootId m = Some root → isFinite root = true.
Proof.
  intros Hfin Hroot. destruct (m !! num 1) as [one|] eqn:Hone.
  - rewrite findRootId_one in Hroot by eauto. by injection Hroot as <-.
  - destruct (findRootId_min m) as (root' & Hroot' & Hin & _); [|done..| ].
    + intros ->. by rewrite (proj2 (findRootId_None ∅)) in Hroot.
    + rewrite Hroot in Hroot'. injection Hroot' as <-. by apply Hfin.
Qed.

(** With valid entries, all of finite identifier, the load reports that it
    cannot determine a root exactly when the root it selected is 0. *)
Lemma loadPeople_no_root stack people st :
  people ≠ [] → Forall (λ p, isFinite (id p) = true) people →
  loadPeople stack people st = Throw no_root ↔ findRootId (buildMap people) = Some (num 0).
Proof.
  intros Hne Hfin. unfold loadPeople. case_decide as Hlen.
  { by apply length_zero_iff_nil in Hlen. }
  destruct (findRootId (buildMap people)) as [root|] eqn:Hroot.
  - assert (isFinite root = true) as Hroot_fin.
    { eapply findRootId_finite; [|done]. intros k. rewrite buildMap_dom.
      intros (p & -> & Hp)%elem_of_list_to_set%list_elem_of_fmap.
      by eapply Forall_forall in Hfin. }
    destruct (falsy_number root) eqn:Hfalsy.
    + by rewrite (falsy_finite_number root).
    + split.
      * destruct (buildTree stack root (buildMap people) (num 1)) as [[t|]|e] eqn:Ht; cbn;
          [done..|].
        apply buildTree_throws in Ht as ->. done.
      * intros [= ->]. done.
  - apply findRootId_None in Hroot. destruct people as [|p people] using rev_ind; [done|].
    rewrite buildMap_snoc in Hroot. by apply insert_non_empty in Hroot.
Qed.

(** The people [[{id: 0}]]: the map is not empty, [findRootId] selects 0, and
    the load throws the no-determinable-root error. *)
Lemma loadPeople_root_zero stack st :
  buildMap [entity (num 0) None] ≠ ∅ ∧
  findRootId (buildMap [entity (num 0) None]) = Some (num 0) ∧
  loadPeople stack [entity (num 0) None] st = Throw no_root.
Proof.
  assert (findRootId (buildMap [entity (num 0) None]) = Some (num 0)) as Hroot
    by (vm_compute; reflexivity).
  split; [|split; [done|]].
  - intros Hempty. apply findRootId_None in Hempty. congruence.
  - apply loadPeople_no_root; [done| |done]. repeat constructor.
Qed.

(** C9, on two records of identifier 1: the load succeeds and counts two
    people, for one distinct identifier and one entity in the map. *)
Lemma peopleCount_counts_duplicates :
  ∃ st, loadPeople 1 twins initialState = Normal st ∧
    peopleCount st = 2%nat ∧
    size (buildMap twins) = 1%nat ∧
    length (remove_dups (id <$> twins)) = 1%nat.
Proof.
  eexists. split; [vm_compute; reflexivity|].
  repeat split; vm_compute; reflexivity.
Qed.

(** C9 (amended): the keyed map is last-write-wins, each identifier holding
    the latest record of the list that carries it, its children emptied, and
    the map has one entity per distinct identifier; the people count that a
    successful load records is the length of the list, duplicates included. *)
Theorem buildMap_last_write_wins people :
  (∀ k, buildMap people !! k = withoutChildren <$> last (filter (λ p, id p = k) people)) ∧
  (∀ k node, buildMap people !! k = Some node → id node = k ∧ children node = []) ∧
  size (buildMap people) = length (remove_dups (id <$> people)) ∧
  (∀ stack st st', loadPeople stack people st = Normal st' →
     peopleCount st' = length people).
Proof.
  split; [apply buildMap_lookup|]. split; [apply buildMap_entity|].
  split; [apply buildMap_size|].
  intros stack st st' (root & t & _ & _ & _ & ->)%loadPeople_Normal. done.
Qed.

(** [buildMap_last_write_wins] on the two records of identifier 1: the map
    keeps the second, and the load counts both. *)
Lemma buildMap_last_write_wins_witness :
  buildMap twins !! num 1
    = Some (mkPerson (num 1) None JNull "B" "" "" "" "" "" "" "" "" "" "" []) ∧
  ∀ stack st st', loadPeople stack twins st = Normal st' → peopleCount st' = 2%nat.
Proof.
  split.
  - rewrite (proj1 (buildMap_last_write_wins twins)). vm_compute. reflexivity.
  - exact (proj2 (proj2 (proj2 (buildMap_last_write_wins twins)))).
Defined.

(** ** Disclosure *)

Lemma PersonCard_unfold node incomingDepth (o : Overrides) :
  PersonCard node incomingDepth o
  = Card (id node)
      (if hasChildren node then Some (showChildren node incomingDepth o) else None)
      (if showChildren node incomingDepth o
       then (λ child, PersonCard child (childDepth node incomingDepth o) o) <$> children node
       else []).
Proof. destruct node. reflexivity. Qed.

Lemma hasChildren_nil node : hasChildren node = false ↔ children node = [].
Proof.
  unfold hasChildren. rewrite bool_decide_eq_false.
  destruct (children node); cbn; [|split; [lia|done]]. split; [done|lia].
Qed.

Lemma flat_map_nil {A B} (l : list A) : flat_map (λ _ : A, @nil B) l = [].
Proof. induction l; cbn; auto. Qed.

(** Without overrides a budget [b >= 1] shows the first [b] levels. *)
Lemma PersonCard_levels d : ∀ node (b : Z),
  (1 ≤ b)%Z →
  cardsAt d (PersonCard node b ∅)
  = if bool_decide (Z.of_nat d < b)%Z then id <$> nodesAt d node else [].
Proof.
  induction d as [|d IH]; intros node b Hb; rewrite PersonCard_unfold.
  - cbn. rewrite bool_decide_true by lia. done.
  - cbn [cardsAt nodesAt].
    unfold showChildren, childDepth, effectiveDepth. rewrite lookup_empty.
    rewrite Z.max_l by lia.
    destruct (hasChildren node) eqn:Hkids; cbn [andb].
    + case_bool_decide as Hshow.
      * rewrite Z.max_l by lia.
        induction (children node) as [|child kids IHkids]; [by case_bool_decide|].
        cbn. rewrite IHkids, IH by lia.
        repeat case_bool_decide; try lia; by rewrite ?fmap_app.
      * rewrite (bool_decide_false (Z.of_nat (S d) < b)%Z) by lia. done.
    + apply hasChildren_nil in Hkids as ->. cbn. by case_bool_decide.
Qed.

(** C5: the effective depth of a card is 1 under a [collapse] override, the
    default 4 under an [expand] override, and otherwise the inherited budget
    or 1 if that is larger; the card shows its children exactly when it has
    some and the effective depth exceeds 1, and it renders each of them with
    the effective depth minus one, or 0 if that is larger.  Hence, without
    overrides and from a budget of 4, the cards of the levels 1 to 4 of any
    tree are rendered and none below; the chain of five shows its first four
    nodes, the fourth closed. *)
Theorem PersonCard_disclosure :
  (∀ node (d : Z) (o : Overrides),
     effectiveDepth node d o
       = match o !! id node with
         | Some collapse => 1%Z
         | Some expand => 4%Z
         | None => Z.max d 1
         end ∧
     (showChildren node d o = true ↔
        children node ≠ [] ∧ (effectiveDepth node d o > 1)%Z) ∧
     PersonCard node d o
       = Card (id node)
           (if hasChildren node then Some (showChildren node d o) else None)
           (if showChildren node d o
            then (λ child, PersonCard child (Z.max (effectiveDepth node d o - 1) 0) o)
                   <$> children node
            else [])) ∧
  (∀ node (level : nat),
     cardsAt level (PersonCard node DEFAULT_DEPTH ∅)
       = if bool_decide (level < 4)%nat then id <$> nodesAt level node else []) ∧
  PersonCard chainOfFive DEFAULT_DEPTH ∅
    = Card (num 1) (Some true)
        [Card (num 2) (Some true)
           [Card (num 4) (Some true)
              [Card (num 8) (Some false) []]]].
Proof.
  split; [|split].
  - intros node d o. split; [reflexivity|]. split; [|apply PersonCard_unfold].
    unfold showChildren. rewrite andb_true_iff, bool_decide_eq_true.
    destruct (hasChildren node) eqn:Hkids.
    + split; [|tauto]. intros [_ Hd]. split; [|done].
      intros Hnil%hasChildren_nil. congruence.
    + apply hasChildren_nil in Hkids. split; [by intros [? _]|by intros [? _]].
  - intros node level. rewrite PersonCard_levels by done.
    unfold DEFAULT_DEPTH. repeat case_bool_decide; done || lia.
  - vm_compute. reflexivity.
Qed.

(** ** Toggling *)

(** C6: the toggle of a card writes [collapse] under its identifier when the
    card is showing its children and [expand] otherwise, and changes no other
    entry.  A card with no override that is not showing gets [expand] by a
    first toggle; it then shows its children, if it has any, whatever budget
    it inherits, and a second toggle while it shows them writes [collapse],
    all other entries being as they were at the start. *)
Theorem toggle_writes_own_entry node (d : Z) (o prev : Overrides) :
  toggle node d o prev !! id node
    = Some (if showChildren node d o then collapse else expand) ∧
  (∀ k, k ≠ id node → toggle node d o prev !! k = prev !! k) ∧
  (o !! id node = None → showChildren node d o = false →
   toggle node d o o !! id node = Some expand ∧
   ∀ d' : Z,
     (hasChildren node = true → showChildren node d' (toggle node d o o) = true) ∧
     (showChildren node d' (toggle node d o o) = true →
      toggle node d' (toggle node d o o) (toggle node d o o) !! id node = Some collapse ∧
      ∀ k, k ≠ id node →
        toggle node d' (toggle node d o o) (toggle node d o o) !! k = o !! k)).
Proof.
  split; [|split].
  - unfold toggle. apply lookup_insert_eq.
  - intros k Hk. unfold toggle. by apply lookup_insert_ne.
  - intros Hdefault Hshut. unfold toggle at 1. rewrite Hshut, lookup_insert_eq.
    split; [done|]. intros d'. split.
    + intros Hkids. unfold toggle. rewrite Hshut.
      unfold showChildren, effectiveDepth. rewrite lookup_insert_eq, Hkids. done.
    + intros Hopen. unfold toggle at 1. rewrite Hopen, lookup_insert_eq. split; [done|].
      intros k Hk. unfold toggle. by rewrite !lookup_insert_ne.
Qed.

(** [toggle_writes_own_entry] on the first node of the chain, rendered with
    budget 1 and no override: closed, then opened, then collapsed. *)
Lemma toggle_writes_own_entry_witness :
  (∅ : Overrides) !! id chainOfFive = None ∧
  showChildren chainOfFive 1 ∅ = false ∧
  toggle chainOfFive 1 ∅ ∅ !! id chainOfFive = Some expand ∧
  showChildren chainOfFive 0 (toggle chainOfFive 1 ∅ ∅) = true ∧
  toggle chainOfFive 0 (toggle chainOfFive 1 ∅ ∅) (toggle chainOfFive 1 ∅ ∅)
    !! id chainOfFive = Some collapse.
Proof.
  assert ((∅ : Overrides) !! id chainOfFive = None) as Hdefault by apply lookup_empty.
  assert (showChildren chainOfFive 1 ∅ = false) as Hshut by (vm_compute; reflexivity).
  destruct (proj2 (proj2 (toggle_writes_own_entry chainOfFive 1 ∅ ∅)) Hdefault Hshut)
    as [Hexpand Hnext].
  destruct (Hnext 0%Z) as [Hopen Hcollapse].
  split; [exact Hdefault|]. split; [exact Hshut|]. split; [exact Hexpand|]. split.
  - apply Hopen. vm_compute. reflexivity.
  - apply Hcollapse, Hopen. vm_compute. reflexivity.
Defined.

(** ** The normalizer *)

(** Induction on a value with the elements of an array as premises. *)
Lemma JsValue_array_ind (P : JsValue → Prop) :
  (∀ v, (∀ items, v ≠ JArr items) → P v) →
  (∀ items, Forall P items → P (JArr items)) →
  ∀ v, P v.
Proof.
  intros Hbase Harr. fix IH 1. intros [| | | | |items|]; try (by apply Hbase).
  apply Harr. induction items as [|x rest IHrest]; constructor; [apply IH|apply IHrest].
Qed.

Lemma safe_bind {A B} (c : Completion A) (f : A → Completion B) :
  safe c → (∀ x, c = Normal x → safe (f x)) → safe (c ≫= f).
Proof. destruct c as [x|e]; cbn; auto. Qed.

Lemma own_property_convertible fields key :
  forallb (λ kv : string * JsValue, convertible kv.2) fields = true →
  convertible (own_property fields key) = true.
Proof.
  induction fields as [|[k v] fields IH]; cbn; [done|].
  intros [Hv Hrest]%andb_true_iff. case_decide; auto.
Qed.

Section NormalizerProperties.
Context `{JsRuntime}.

Lemma ToString_array_one x :
  ToString (JArr [x]) = if nullish x then Normal "" else ToString x.
Proof. cbn. by destruct (if nullish x then _ else _). Qed.

Lemma ToString_array_cons x y rest :
  ToString (JArr (x :: y :: rest))
  = s ← (if nullish x then Normal "" else ToString x);
    r ← ToString (JArr (y :: rest));
    Normal (s ++ "," ++ r).
Proof. reflexivity. Qed.

Lemma convertible_array x rest :
  convertible (JArr (x :: rest)) = (nullish x || convertible x) && convertible (JArr rest).
Proof. reflexivity. Qed.

(** [String(v)] returns exactly on the convertible values, and throws the
    failed conversion on the others. *)
Lemma ToString_spec v :
  match ToString v with
  | Normal _ => convertible v = true
  | Throw e => e = cannot_convert ∧ convertible v = false
  end.
Proof.
  induction v as [v Hv|items IH] using JsValue_array_ind.
  - destruct v as [| | | | |items|fields]; cbn; try done.
    + by destruct (Hv items).
    + by destruct (has_own_property fields "toString").
  - induction items as [|x rest IHrest]; [done|].
    apply Forall_cons in IH as [Hx Hrest]. specialize (IHrest Hrest).
    rewrite convertible_array. destruct rest as [|y rest].
    + rewrite ToString_array_one. change (convertible (JArr [])) with true.
      rewrite andb_true_r. destruct (nullish x); [done|]. exact Hx.
    + rewrite ToString_array_cons.
      destruct (ToString (JArr (y :: rest))) as [r|e];
        destruct (convertible (JArr (y :: rest)));
        destruct (nullish x); destruct (ToString x) as [s|e'];
        destruct (convertible x); cbn; naive_solver.
Qed.

Lemma ToNumber_spec v :
  match ToNumber v with
  | Normal _ => convertible v = true
  | Throw e => e = cannot_convert ∧ convertible v = false
  end.
Proof.
  destruct v as [| | | | |items|fields]; try done.
  - unfold ToNumber. pose proof (ToString_spec (JArr items)) as Hs.
    by destruct (ToString (JArr items)).
  - unfold ToNumber. pose proof (ToString_spec (JObj fields)) as Hs.
    by destruct (ToString (JObj fields)).
Qed.

(** [parseId] gives a finite number or [null], unless the conversion throws. *)
Lemma parseId_spec value :
  match parseId value with
  | Normal (Some n) => isFinite n = true ∧ convertible value = true
  | Normal None => convertible value = true
  | Throw e => e = cannot_convert ∧ convertible value = false
  end.
Proof.
  unfold parseId. destruct (nullish value) eqn:Hnull.
  - by destruct value.
  - pose proof (ToNumber_spec value) as Hn.
    destruct (ToNumber value) as [n|e]; cbn; [|done].
    by destruct (isFinite n) eqn:Hfin.
Qed.

Lemma parseId_safe value : safe (parseId value).
Proof.
  pose proof (parseId_spec value) as Hp.
  destruct (parseId value) as [o|e]; [done|]. by destruct Hp.
Qed.

Lemma parseId_total value : convertible value = true → ∃ o, parseId value = Normal o.
Proof.
  intros Hv. pose proof (parseId_spec value) as Hp.
  destruct (parseId value) as [o|e]; [by eexists|]. destruct Hp. congruence.
Qed.

Lemma readField_safe fields keys : safe (readField (JObj fields) keys).
Proof.
  induction keys as [|key keys IH]; [done|]. cbn.
  destruct (nullish (own_property fields key)); [done|].
  pose proof (ToString_spec (own_property fields key)) as Hs.
  destruct (ToString (own_property fields key)); [done|]. by destruct Hs.
Qed.

Lemma readField_total fields keys :
  plainRecord (JObj fields) = true → ∃ s, readField (JObj fields) keys = Normal s.
Proof.
  intros Hplain. induction keys as [|key keys IH]; [by eexists|]. cbn.
  destruct (nullish (own_property fields key)); [done|].
  pose proof (ToString_spec (own_property fields key)) as Hs.
  destruct (ToString (own_property fields key)); [by eexists|].
  destruct Hs as [_ Hs]. by rewrite own_property_convertible in Hs.
Qed.

End NormalizerProperties.

Lemma coalesce_None_r {A} (c : Completion (option A)) : c ?? Normal None = c.
Proof. by destruct c as [[x|]|e]. Qed.

Lemma mapM_Normal {A B} (f : A → Completion B) l ys :
  mapM f l = Normal ys → Forall2 (λ x y, f x = Normal y) l ys.
Proof.
  revert ys. induction l as [|x l IH]; intros ys; cbn.
  - intros [= <-]. constructor.
  - intros (y & Hy & (k & Hk & [= <-])%bind_Normal)%bind_Normal. constructor; auto.
Qed.

Lemma mapM_total {A B} (f : A → Completion B) l :
  Forall (λ x, ∃ y, f x = Normal y) l → ∃ ys, mapM f l = Normal ys.
Proof.
  induction 1 as [|x l [y Hy] _ [ys Hys]]; cbn; [by eexists|].
  rewrite Hy. cbn. rewrite Hys. by eexists.
Qed.

Lemma mapM_safe {A B} (f : A → Completion B) l : (∀ x, safe (f x)) → safe (mapM f l).
Proof.
  intros Hf. induction l as [|x l IH]; cbn; [done|].
  apply safe_bind; [apply Hf|]. intros y _. apply safe_bind; [apply IH|done].
Qed.

Section NormalizerClaims.
Context `{JsRuntime}.

Lemma firstOf_Normal raw keys o :
  firstOf raw keys = Normal o →
  (o = None ↔ ∀ key, key ∈ keys → parseId (OptGet raw key) = Normal None) ∧
  (∀ n, o = Some n →
     ∃ before key after,
       keys = (before ++ key :: after)%list ∧
       (∀ k, k ∈ before → parseId (OptGet raw k) = Normal None) ∧
       parseId (OptGet raw key) = Normal (Some n)).
Proof.
  revert o. induction keys as [|key keys IH]; intros o; cbn.
  - intros [= <-]. split; [split; [by intros _ key ?%elem_of_nil|done]|done].
  - destruct (parseId (OptGet raw key)) as [[n|]|e] eqn:Hkey; cbn; [| |done].
    + intros [= <-]. split.
      * split; [done|]. intros Hall. specialize (Hall key (list_elem_of_here _ _)).
        congruence.
      * intros n' [= <-]. exists [], key, keys. split; [done|]. split; [|done].
        by intros k ?%elem_of_nil.
    + intros Hrest. destruct (IH o Hrest) as [Hnone Hsome]. split.
      * rewrite Hnone. split.
        -- intros Hall k [->|Hk]%elem_of_cons; auto.
        -- intros Hall k Hk. apply Hall. by right.
      * intros n Hn. destruct (Hsome n Hn) as (before & k & after & -> & Hbefore & Hk).
        exists (key :: before), k, after. split; [done|]. split; [|done].
        intros k' [->|Hk']%elem_of_cons; auto.
Qed.

Lemma normalizePerson_firstOf raw r :
  normalizePerson raw = Normal r → firstOf raw idKeys = Normal (id <$> r).
Proof.
  unfold normalizePerson, firstOf, idKeys. cbn [foldr]. rewrite coalesce_None_r.
  destruct (parseId (OptGet raw "id") ?? _) as [[i|]|e]; cbn [mbind Completion_bind];
    [|by intros [= <-]|done].
  intros Hr. cbv zeta in Hr.
  repeat (apply bind_Normal in Hr as (? & _ & Hr)). by injection Hr as <-.
Qed.

Lemma coalesce_safe {A} (a b : Completion (option A)) :
  safe a → safe b → safe (a ?? b).
Proof. destruct a as [[x|]|e]; cbn; auto. Qed.

Lemma normalizePerson_safe raw : safe (normalizePerson raw).
Proof.
  destruct raw as [| | | | | |fields]; try done.
  unfold normalizePerson. apply safe_bind.
  - repeat apply coalesce_safe; apply parseId_safe.
  - intros [i|] _; [|done].
    apply safe_bind; [apply parseId_safe|intros ? _]. cbv zeta.
    repeat (apply safe_bind; [apply readField_safe|intros ? _]). done.
Qed.

Lemma normalizePerson_total raw :
  plainRecord raw = true → ∃ r, normalizePerson raw = Normal r.
Proof.
  intros Hplain. destruct raw as [| | | | | |fields]; try (by eexists).
  unfold normalizePerson. cbn [OptGet].
  pose proof (λ key, parseId_total _ (own_property_convertible fields key Hplain)) as Hid.
  destruct (Hid "id") as [a1 ->], (Hid "ID") as [a2 ->], (Hid "Id") as [a3 ->],
    (Hid "sosa") as [a4 ->], (Hid "Sosa") as [a5 ->], (Hid "generation") as [g ->].
  pose proof (λ keys, readField_total fields keys Hplain) as Hfield.
  destruct (Hfield fieldMap.name) as [? ->], (Hfield fieldMap.birthDate) as [? ->],
    (Hfield fieldMap.birthPlace) as [? ->], (Hfield fieldMap.spouse) as [? ->],
    (Hfield fieldMap.unionDate) as [? ->], (Hfield fieldMap.unionPlace) as [? ->],
    (Hfield fieldMap.childrenCount) as [? ->], (Hfield fieldMap.deathDate) as [? ->],
    (Hfield fieldMap.deathPlace) as [? ->], (Hfield fieldMap.deathAge) as [? ->],
    (Hfield fieldMap.job) as [? ->].
  destruct a1, a2, a3, a4, a5; cbn; by eexists.
Qed.

End NormalizerClaims.

Lemma elem_of_filterBoolean_Forall2 {A B} (f : A → Completion (option B)) l results p :
  Forall2 (λ x y, f x = Normal y) l results → p ∈ filterBoolean results →
  ∃ x, x ∈ l ∧ f x = Normal (Some p).
Proof.
  intros Hall Hp%elem_of_filterBoolean.
  induction Hall as [|x y l results Hxy _ IH]; [by apply elem_of_nil in Hp|].
  apply elem_of_cons in Hp as [<-|Hp].
  - exists x. split; [by left|done].
  - destruct (IH Hp) as (x' & Hx' & Hfx'). exists x'. split; [by right|done].
Qed.

Section NormalizerTheorems.
Context `{JsRuntime}.

Lemma normalizeDataset_throws : normalizeDataset unconvertibleId = Throw cannot_convert.
Proof. reflexivity. Qed.

(** A present value that is not finite does not stop the search: the record
    [{"id": 1e999, "sosa": 5}], whose [id] is read as [Infinity], gets 5. *)
Lemma normalizePerson_falls_through :
  normalizePerson (JObj [("id", JNum (Infinity false)); ("sosa", JNum (num 5))])
  = Normal (Some (entity (num 5) None)).
Proof. reflexivity. Qed.

(** C8 (amended): the normalizer throws nothing of its own, and nothing at
    all on records whose properties convert to primitives; the one exception
    it lets through is the [TypeError] of [Number] or [String] on a value
    that has none (an object with its own [toString], or an array of such).
    Per item the keys [id], [ID], [Id], [sosa], [Sosa] are tried in order,
    the first whose value gives a finite number is the identifier, and the
    item is dropped exactly when none does; so every entity of the result
    has a finite identifier and comes from an item that passed. *)
Theorem normalizer_lenient :
  (∀ data, Forall (λ raw, plainRecord raw = true) (containerOf data) →
     ∃ people, normalizeDataset data = Normal people) ∧
  (∀ data e, normalizeDataset data = Throw e → e = cannot_convert) ∧
  (∀ raw r, normalizePerson raw = Normal r →
     (r = None ↔ ∀ key, key ∈ idKeys → parseId (OptGet raw key) = Normal None) ∧
     (∀ p, r = Some p →
        isFinite (id p) = true ∧
        ∃ before key after,
          idKeys = (before ++ key :: after)%list ∧
          (∀ k, k ∈ before → parseId (OptGet raw k) = Normal None) ∧
          parseId (OptGet raw key) = Normal (Some (id p)))) ∧
  (∀ data people, normalizeDataset data = Normal people →
     ∀ p, p ∈ people →
       isFinite (id p) = true ∧
       ∃ raw, raw ∈ containerOf data ∧ normalizePerson raw = Normal (Some p)).
Proof.
  assert (∀ raw r, normalizePerson raw = Normal r →
     (r = None ↔ ∀ key, key ∈ idKeys → parseId (OptGet raw key) = Normal None) ∧
     (∀ p, r = Some p →
        isFinite (id p) = true ∧
        ∃ before key after,
          idKeys = (before ++ key :: after)%list ∧
          (∀ k, k ∈ before → parseId (OptGet raw k) = Normal None) ∧
          parseId (OptGet raw key) = Normal (Some (id p)))) as Hitem.
  { intros raw r Hr%normalizePerson_firstOf.
    destruct (firstOf_Normal _ _ _ Hr) as [Hnone Hsome]. split.
    - rewrite <- Hnone. by destruct r.
    - intros p ->. destruct (Hsome (id p) eq_refl) as (before & key & after & ? & ? & Hkey).
      split; [|by exists before, key, after].
      pose proof (parseId_spec (OptGet raw key)) as Hspec. rewrite Hkey in Hspec.
      by destruct Hspec. }
  split; [|split; [|split; [exact Hitem|]]].
  - intros data Hplain. unfold normalizeDataset. destruct (falsy data); [by eexists|].
    destruct (mapM_total normalizePerson (containerOf data)) as [results ->];
      [|by eexists].
    eapply Forall_impl; [exact Hplain|]. intros raw. apply normalizePerson_total.
  - intros data e. unfold normalizeDataset. destruct (falsy data); [done|].
    pose proof (mapM_safe normalizePerson (containerOf data) normalizePerson_safe) as Hs.
    destruct (mapM normalizePerson (containerOf data)); [done|]. cbn in *.
    by intros [= <-].
  - intros data people. unfold normalizeDataset. destruct (falsy data).
    { intros [= <-] p Hp. by apply elem_of_nil in Hp. }
    intros (results & Hresults%mapM_Normal & [= <-])%bind_Normal p Hp.
    destruct (elem_of_filterBoolean_Forall2 _ _ _ _ Hresults Hp) as (raw & Hraw & Hp').
    split; [|by exists raw].
    by destruct (proj2 (Hitem raw _ Hp') p eq_refl).
Qed.

Lemma num_positive_inv z q : num z = numQ q → (inject_Z z == q)%Q.
Proof.
  intros [= Hq].
  rewrite <- (Qred_correct (inject_Z z)), <- (Qred_correct q). by rewrite Hq.
Qed.

(** C10: a record whose [id] is any finite number becomes an entity with that
    identifier; so do the records of identifier 0, -1 and 2.5, none of which
    is a positive integer. *)
Theorem normalizer_accepts_any_finite_id :
  (∀ n, isFinite n = true →
     normalizeDataset (JArr [JObj [("id", JNum n)]]) = Normal [entity n None]) ∧
  normalizeDataset
    (JArr [JObj [("id", JNum (num 0))];
           JObj [("id", JNum (num (-1)))];
           JObj [("id", JNum (numQ (5 # 2)))]])
  = Normal [entity (num 0) None; entity (num (-1)) None; entity (numQ (5 # 2)) None] ∧
  ¬ positiveInteger (num 0) ∧
  ¬ positiveInteger (num (-1)) ∧
  ¬ positiveInteger (numQ (5 # 2)).
Proof.
  split; [|split; [reflexivity|]].
  - intros [| |q] Hn; try discriminate. reflexivity.
  - repeat split; intros (z & Hz & Heq); symmetry in Heq;
      apply num_positive_inv in Heq; unfold Qeq, inject_Z in Heq; cbn in Heq; lia.
Qed.

End NormalizerTheorems.

(** C8, on a record whose [id] is an object with its own [toString]:
    [Number] cannot convert it and throws, and so does the normalizer,
    whatever the runtime's string conversions are. *)
Lemma normalizer_throws_on_unconvertible_id :
  ¬ ∀ runtime : JsRuntime,
      ∃ people, @normalizeDataset runtime unconvertibleId = Normal people.
Proof.
  intros Hall.
  destruct (Hall {| StringToNumber := λ _, NaN; NumberToString := λ _, "" |})
    as [people Hpeople].
  by rewrite normalizeDataset_throws in Hpeople.
Qed.

(** ** The override mapping across loads and clicks *)

Lemma loadPeople_overrides stack people st st' :
  loadPeople stack people st = Normal st' →
  ∃ treeBuilt, tree st' = Some treeBuilt ∧ overrides st' = {[id treeBuilt := expand]}.
Proof.
  intros (root & t & _ & _ & Ht & ->)%loadPeople_Normal. exists t. split; [done|].
  destruct (buildTree_inv _ _ _ _ _ Ht) as (? & node & ? & ? & _ & Hnode & -> & _).
  apply buildMap_entity in Hnode as [<- _]. done.
Qed.

Section Lifecycle.
Context `{JsRuntime}.

(** A load either succeeds, leaving a tree and the single override of its
    root, or fails, leaving no tree and the overrides it found. *)
Lemma loadFile_overrides stack path outcome st :
  (∃ treeBuilt,
     tree (loadFile stack path outcome st) = Some treeBuilt ∧
     overrides (loadFile stack path outcome st) = {[id treeBuilt := expand]}) ∨
  (tree (loadFile stack path outcome st) = None ∧
   overrides (loadFile stack path outcome st) = overrides st).
Proof.
  unfold loadFile.
  match goal with |- context [setLoading false (match ?a with _ => _ end)] =>
    destruct a as [st'|e] eqn:Hattempt end; [|by right].
  left. destruct outcome as [reason|ok status json]; [done|].
  destruct ok; [|done]. cbn [negb] in Hattempt.
  apply bind_Normal in Hattempt as (data & _ & Hattempt).
  apply bind_Normal in Hattempt as (people & _ & Hattempt).
  apply loadPeople_overrides in Hattempt as (t & Ht & Ho). exists t. cbn. by rewrite Ht, Ho.
Qed.

(** C7 (amended to the loads that succeed): a load that succeeds leaves the
    single entry [{root: expand}], where root is the identifier of the tree
    it built; a load that fails leaves the mapping as it found it; a click
    writes one entry, the clicked identifier's, and neither removes nor
    changes any other. *)
Theorem overrides_lifecycle stack st ev :
  match ev with
  | Load path outcome =>
      (∀ treeBuilt, tree (step stack st ev) = Some treeBuilt →
         overrides (step stack st ev) = {[id treeBuilt := expand]}) ∧
      (tree (step stack st ev) = None → overrides (step stack st ev) = overrides st)
  | Click node incomingDepth =>
      (∃ state, overrides (step stack st ev) = <[id node := state]> (overrides st)) ∧
      (∀ k, is_Some (overrides st !! k) → is_Some (overrides (step stack st ev) !! k)) ∧
      (∀ k, k ≠ id node → overrides (step stack st ev) !! k = overrides st !! k)
  end.
Proof.
  destruct ev as [path outcome|node d]; cbn [step].
  - destruct (loadFile_overrides stack path outcome st) as [(t & Ht & Ho)|[Ht Ho]].
    + split; [|congruence]. intros t' Ht'. congruence.
    + split; [congruence|done].
  - cbn [overrides setOverrides]. unfold toggle. split; [by eexists|]. split.
    + intros k Hk. destruct (decide (k = id node)) as [->|Hne].
      * rewrite lookup_insert_eq. by eexists.
      * by rewrite lookup_insert_ne.
    + intros k Hne. by rewrite lookup_insert_ne.
Qed.

(** C3, on the file [[{"id": 0}]]: the normalizer keeps the record, the map
    is not empty and [findRootId] selects 0, its least identifier; [!rootId]
    then takes that 0 for a missing root, and the load ends without a tree,
    with the no-determinable-root message. *)
Theorem root_zero_reported_missing stack path st :
  normalizeDataset (JArr [JObj [("id", JNum (num 0))]]) = Normal [entity (num 0) None] ∧
  buildMap [entity (num 0) None] ≠ ∅ ∧
  findRootId (buildMap [entity (num 0) None]) = Some (num 0) ∧
  tree (loadFile stack path
          (Response true 200 (Normal (JArr [JObj [("id", JNum (num 0))]]))) st) = None ∧
  error (loadFile stack path
           (Response true 200 (Normal (JArr [JObj [("id", JNum (num 0))]]))) st)
  = "Impossible de déterminer la racine (id le plus petit manquant).".
Proof.
  split; [reflexivity|].
  destruct (loadPeople_root_zero stack (setTree None (setError "" (setLoading true st))))
    as (Hmap & Hroot & Hload).
  split; [exact Hmap|]. split; [exact Hroot|].
  unfold loadFile. cbn [negb mbind Completion_bind].
  change (normalizeDataset _) with (Normal [entity (num 0) None]).
  cbn [mbind Completion_bind]. rewrite Hload. split; reflexivity.
Qed.

(** The end-to-end example: three records, root 1 with its two parents. *)
Lemma loadFile_three_records stack :
  let st :=
    loadFile (S (S stack)) DEFAULT_PATH
      (Response true 200
         (Normal (JArr [JObj [("id", JNum (num 1)); ("name", JStr "A")];
                        JObj [("id", JNum (num 2)); ("name", JStr "B")];
                        JObj [("id", JNum (num 3)); ("name", JStr "C")]])))
      initialState in
  error st = "" ∧ peopleCount st = 3%nat ∧ overrides st = {[num 1 := expand]} ∧
  (name <$> tree st) = Some "A" ∧
  (λ t, name <$> children t) <$> tree st = Some ["B"; "C"] ∧
  (λ t, cardsAt 1 (PersonCard t DEFAULT_DEPTH (overrides st))) <$> tree st
    = Some [num 2; num 3].
Proof.
  cbn zeta. unfold loadFile. cbn [negb mbind Completion_bind].
  change (normalizeDataset _) with
    (Normal [mkPerson (num 1) None JNull "A" "" "" "" "" "" "" "" "" "" "" [];
             mkPerson (num 2) None JNull "B" "" "" "" "" "" "" "" "" "" "" [];
             mkPerson (num 3) None JNull "C" "" "" "" "" "" "" "" "" "" "" []]).
  cbn [mbind Completion_bind].
  match goal with |- context [loadPeople _ ?people ?st] =>
    assert (loadPeople (S (S stack)) people st
            = Normal (setTree
                (Some (treeNode (mkPerson (num 1) None JNull "A" "" "" "" "" "" "" "" "" "" "" [])
                   (num 1)
                   [treeNode (mkPerson (num 2) None JNull "B" "" "" "" "" "" "" "" "" "" "" [])
                      (num 1 + num 1)%num [];
                    treeNode (mkPerson (num 3) None JNull "C" "" "" "" "" "" "" "" "" "" "" [])
                      (num 1 + num 1)%num []]))
                (setPeopleCount 3 (setOverrides {[num 1 := expand]} st)))) as ->
  end.
  { unfold loadPeople. cbn [length]. case_decide; [done|].
    match goal with |- context [findRootId ?m] =>
      assert (findRootId m = Some (num 1)) as -> by (vm_compute; reflexivity) end.
    change (falsy_number (num 1)) with false. cbn iota.
    match goal with |- context [buildTree _ _ ?m _] =>
      rewrite (buildTree_mono 2 (S (S stack)) (num 1) m (num 1)
                 (Some (treeNode
                    (mkPerson (num 1) None JNull "A" "" "" "" "" "" "" "" "" "" "" [])
                    (num 1)
                    [treeNode
                       (mkPerson (num 2) None JNull "B" "" "" "" "" "" "" "" "" "" "" [])
                       (num 1 + num 1)%num [];
                     treeNode
                       (mkPerson (num 3) None JNull "C" "" "" "" "" "" "" "" "" "" "" [])
                       (num 1 + num 1)%num []])))
        by (vm_compute; reflexivity || lia) end.
    reflexivity. }
  repeat split; vm_compute; reflexivity.
Qed.

End Lifecycle.

(** C7, on a load that fails: the first load of the application, answered
    with status 404, leaves the override mapping empty; it is not
    [{root: expand}] for any root. *)
Lemma failed_load_keeps_overrides :
  ¬ ∀ runtime : JsRuntime,
      ∃ root,
        overrides (@loadFile runtime 8 DEFAULT_PATH (Response false 404 (Normal JNull))
                     initialState)
        = {[root := expand]}.
Proof.
  intros Hall.
  destruct (Hall {| StringToNumber := λ _, NaN; NumberToString := λ _, "" |})
    as [root Hroot].
  cbn in Hroot. apply (f_equal (lookup root)) in Hroot.
  by rewrite lookup_empty, lookup_singleton_eq in Hroot.
Qed.

(** * Further properties of the pipeline *)

(** ** Reading the fields of a record *)

Section ReadingRecords.
Context `{JsRuntime}.


(** X2: the container that [normalizeDataset] reads.  A falsy input gives no
    entity; an object with a [people] array stands for that array, whatever
    else it carries (a [records] array, an [id] of its own); an object with
    a [records] array and no [people] array stands for that array; any other
    truthy value stands for the one-element list of itself. *)
Theorem normalizeDataset_containers :
  (∀ data, falsy data = true → normalizeDataset data = Normal []) ∧
  (∀ fields items,
     own_property fields "people" = JArr items →
     normalizeDataset (JObj fields) = normalizeDataset (JArr items)) ∧
  (∀ fields items,
     (∀ l, own_property fields "people" ≠ JArr l) →
     own_property fields "records" = JArr items →
     normalizeDataset (JObj fields) = normalizeDataset (JArr items)) ∧
  (∀ data,
     falsy data = false → (∀ l, data ≠ JArr l) →
     (∀ l, OptGet data "people" ≠ JArr l) → (∀ l, OptGet data "records" ≠ JArr l) →
     normalizeDataset data = normalizeDataset (JArr [data])).
Proof.
  split; [|split; [|split]].
  - intros data Hfalsy. unfold normalizeDataset. by rewrite Hfalsy.
  - intros fields items Hpeople. unfold normalizeDataset, containerOf. cbn.
    by rewrite Hpeople.
  - intros fields items Hpeople Hrecords. unfold normalizeDataset, containerOf. cbn.
    rewrite Hrecords. destruct (own_property fields "people"); try done.
    by destruct (Hpeople items0).
  - intros data Hfalsy Harr Hpeople Hrecords. unfold normalizeDataset. rewrite Hfalsy.
    cbn [falsy]. unfold containerOf at 1.
    destruct data as [| | | | |l|fields]; try done.
    + by destruct (Harr l).
    + cbn in *. destruct (own_property fields "people") as [| | | | |l|];
        try (by destruct (Hpeople l));
        destruct (own_property fields "records") as [| | | | |l'|];
        try (by destruct (Hrecords l')); done.
Qed.

(** X3: normalization goes item by item, in order: the entities of two lists
    of records put end to end are the entities of the first followed by
    those of the second (no record is merged with another, alike or not),
    there are never more entities than records, and a conversion that
    throws in the first list throws for the whole. *)
Theorem normalizeDataset_app xs ys :
  (∀ px py,
     normalizeDataset (JArr xs) = Normal px → normalizeDataset (JArr ys) = Normal py →
     normalizeDataset (JArr (xs ++ ys)) = Normal (px ++ py)%list) ∧
  (∀ px, normalizeDataset (JArr xs) = Normal px → (length px ≤ length xs)%nat) ∧
  (∀ e, normalizeDataset (JArr xs) = Throw e → normalizeDataset (JArr (xs ++ ys)) = Throw e).
Proof.
  unfold normalizeDataset. cbn [falsy containerOf].
  assert (∀ a b : list (option NormalizedPerson),
            filterBoolean (a ++ b) = (filterBoolean a ++ filterBoolean b)%list) as Happ.
  { intros a b. induction a as [|[x|] a IH]; cbn; by rewrite ?IH. }
  induction xs as [|x xs IH]; cbn [mapM app].
  - split; [|split; [|done]].
    + intros px py [= <-] Hy. cbn. by rewrite Hy.
    + intros px [= <-]. done.
  - destruct (normalizePerson x) as [r|e]; cbn [mbind Completion_bind]; [|done].
    destruct IH as (IHapp & IHlen & IHthrow).
    destruct (mapM normalizePerson xs) as [rs|e] eqn:Hxs; cbn [mbind Completion_bind] in *.
    + split; [|split; [|done]].
      * intros px py [= <-] Hy. specialize (IHapp _ _ eq_refl Hy).
        destruct (mapM normalizePerson (xs ++ ys)) as [rs'|]; [|done].
        cbn in *. injection IHapp as IHapp. destruct r; cbn; by rewrite IHapp.
      * intros px [= <-]. specialize (IHlen _ eq_refl). destruct r; cbn; lia.
    + split; [done|]. split; [done|]. intros e' [= <-].
      specialize (IHthrow _ eq_refl).
      destruct (mapM normalizePerson (xs ++ ys)) as [|e'']; [done|].
      cbn in *. congruence.
Qed.

(** X4: the normalizer leaves a canonical record as it is.  An entity with a
    finite identifier, a finite generation or none, and a gender that is not
    [undefined], written back under the keys of [NormalizedPerson], is
    normalized to itself, its children emptied. *)
Theorem normalizePerson_canonical person :
  isFinite (id person) = true →
  (∀ g, generation person = Some g → isFinite g = true) →
  gender person ≠ JUndefined →
  normalizePerson (toRecord person) = Normal (Some (withoutChildren person)).
Proof.
  destruct person as [i g s n bd bp sp ud up cc dd dp da j kids]. cbn.
  intros Hi Hg Hs. destruct i as [| |q]; try done.
  destruct g as [[| |g]|]; try (by specialize (Hg _ eq_refl));
    destruct s; try done; reflexivity.
Qed.

End ReadingRecords.


(** [normalizePerson_canonical] on the second of the two records of
    identifier 1. *)
Lemma normalizePerson_canonical_witness :
  isFinite (num 1) = true ∧
  @normalizePerson sampleRuntime
    (toRecord (mkPerson (num 1) None (JStr "F") "B" "" "" "" "" "" "" "" "" "" "" []))
  = Normal (Some (mkPerson (num 1) None (JStr "F") "B" "" "" "" "" "" "" "" "" "" "" [])).
Proof.
  split; [reflexivity|].
  apply (@normalizePerson_canonical sampleRuntime
           (mkPerson (num 1) None (JStr "F") "B" "" "" "" "" "" "" "" "" "" "" []));
    [reflexivity|discriminate|discriminate].
Defined.

(** ** The shape of the tree *)

Lemma buildTree_inv_has stack (m : PeopleMap) k g t :
  buildTree stack k m g = Normal (Some t) →
  ∃ stack' node left right,
    stack = S stack' ∧ m !! k = Some node ∧
    t = treeNode node g (filterBoolean [left; right]) ∧
    (if Map_has m (k * num 2)%num
     then ∃ l, left = Some l ∧
            buildTree stack' (k * num 2)%num m (g + num 1)%num = Normal (Some l)
     else left = None) ∧
    (if Map_has m (k * num 2 + num 1)%num
     then ∃ r, right = Some r ∧
            buildTree stack' (k * num 2 + num 1)%num m (g + num 1)%num = Normal (Some r)
     else right = None).
Proof.
  destruct stack as [|stack]; cbn [buildTree]; [done|].
  destruct (m !! k) as [node|]; [|done].
  destruct (Map_has m (k * num 2)%num) eqn:Hhl;
    destruct (Map_has m (k * num 2 + num 1)%num) eqn:Hhr.
  - destruct (buildTree stack (k * num 2)%num m _) as [l|] eqn:Hl; cbn; [|done].
    destruct (buildTree stack (k * num 2 + num 1)%num m _) as [r|] eqn:Hr; cbn; [|done].
    intros [= <-].
    destruct (buildTree_present _ _ _ _ _ (proj1 (Map_has_true _ _) Hhl) Hl) as [l' ->].
    destruct (buildTree_present _ _ _ _ _ (proj1 (Map_has_true _ _) Hhr) Hr) as [r' ->].
    exists stack, node, (Some l'), (Some r'). repeat split; by eexists.
  - destruct (buildTree stack (k * num 2)%num m _) as [l|] eqn:Hl; cbn; [|done].
    intros [= <-].
    destruct (buildTree_present _ _ _ _ _ (proj1 (Map_has_true _ _) Hhl) Hl) as [l' ->].
    exists stack, node, (Some l'), None. repeat split; by eexists.
  - destruct (buildTree stack (k * num 2 + num 1)%num m _) as [r|] eqn:Hr; cbn; [|done].
    intros [= <-].
    destruct (buildTree_present _ _ _ _ _ (proj1 (Map_has_true _ _) Hhr) Hr) as [r' ->].
    exists stack, node, None, (Some r'). repeat split; by eexists.
  - cbn. intros [= <-]. exists stack, node, None, None. done.
Qed.

Lemma built_levels d : ∀ stack people k g t,
  buildTree stack k (buildMap people) g = Normal (Some t) →
  id <$> nodesAt d t = presentAt (buildMap people) d k.
Proof.
  induction d as [|d IH]; intros stack people k g t Ht;
    destruct (buildTree_inv_has _ _ _ _ _ Ht)
      as (stack' & node & left & right & -> & Hnode & -> & Hl & Hr).
  - cbn. rewrite (proj2 (Map_has_true _ _)) by eauto.
    by apply buildMap_entity in Hnode as [-> _].
  - cbn [nodesAt presentAt children treeNode].
    rewrite (proj2 (Map_has_true _ k)) by eauto.
    destruct (Map_has (buildMap people) (k * num 2)%num) eqn:Hhl;
      destruct (Map_has (buildMap people) (k * num 2 + num 1)%num) eqn:Hhr.
    + destruct Hl as (l & -> & Hl), Hr as (r & -> & Hr). cbn.
      rewrite app_nil_r, fmap_app. by rewrite (IH _ _ _ _ _ Hl), (IH _ _ _ _ _ Hr).
    + destruct Hl as (l & -> & Hl). subst right. cbn.
      rewrite app_nil_r, (IH _ _ _ _ _ Hl), (presentAt_absent _ _ _ Hhr).
      by rewrite app_nil_r.
    + destruct Hr as (r & -> & Hr). subst left. cbn.
      rewrite app_nil_r, (IH _ _ _ _ _ Hr), (presentAt_absent _ _ _ Hhl). done.
    + subst left right. cbn.
      by rewrite (presentAt_absent _ _ _ Hhl), (presentAt_absent _ _ _ Hhr).
Qed.

(** X5: in the tree that [buildTree] returns for a keyed map, the
    identifiers of the nodes [d] levels below the root are, left to right,
    the identifiers that [d] steps of [k * 2] and [k * 2 + 1] reach from the
    root and that are in the map together with every identifier on their
    way to the root: an entity whose line to the root has a gap is left
    out, with all above it. *)
Theorem built_tree_levels stack people k g t d :
  buildTree stack k (buildMap people) g = Normal (Some t) →
  id <$> nodesAt d t = presentAt (buildMap people) d k.
Proof. apply built_levels. Qed.

(** [built_tree_levels] on [{1, 2, 5, 6}]: 5 hangs from 2, and 6 is cut off
    because 3 is missing. *)
Lemma built_tree_levels_witness :
  ∃ t,
    buildTree 3 (num 1) (buildMap ((λ k, entity (num k) None) <$> [1; 2; 5; 6]%Z)) (num 1)
      = Normal (Some t) ∧
    id <$> nodesAt 2 t
      = presentAt (buildMap ((λ k, entity (num k) None) <$> [1; 2; 5; 6]%Z)) 2 (num 1) ∧
    presentAt (buildMap ((λ k, entity (num k) None) <$> [1; 2; 5; 6]%Z)) 2 (num 1)
      = [num 5].
Proof.
  assert (buildTree 3 (num 1)
            (buildMap ((λ k, entity (num k) None) <$> [1; 2; 5; 6]%Z)) (num 1)
          = Normal (Some (treeNode (entity (num 1) None) (num 1)
                            [treeNode (entity (num 2) None) (num 2)
                               [treeNode (entity (num 5) None) (num 3) []]]))) as Ht
    by (vm_compute; reflexivity).
  eexists. split; [exact Ht|]. split.
  - exact (built_tree_levels 3 _ (num 1) (num 1) _ 2 Ht).
  - vm_compute. reflexivity.
Defined.

(** ** What a load can end with *)

Lemma num_min_either x y : num_min x y = x ∨ num_min x y = y.
Proof.
  destruct x as [|[]|p], y as [|[]|q]; cbn; auto. case_decide; auto.
Qed.

(** [Math.min] of at least one number is one of them, [NaN] included. *)
Lemma Math_min_in (l : list number) : l ≠ [] → Math_min l ∈ l.
Proof.
  induction l as [|x l IH]; [done|]. intros _. cbn [Math_min foldr]. fold (Math_min l).
  destruct l as [|y l].
  - cbn. destruct x as [|[]|p]; cbn; by left.
  - destruct (num_min_either x (Math_min (y :: l))) as [-> | ->]; [by left|].
    right. by apply IH.
Qed.

(** The root that [findRootId] selects is a key of the map. *)
Lemma findRootId_present (m : PeopleMap) root :
  findRootId m = Some root → is_Some (m !! root).
Proof.
  unfold findRootId. case_decide as Hsize; [done|].
  destruct (Map_has m (num 1)) eqn:Hone.
  - intros [= <-]. by apply Map_has_true.
  - intros [= <-]. apply elem_of_dom, elem_of_elements, Math_min_in.
    intros Hnil%elements_empty_inv. apply Hsize, map_size_empty_iff, dom_empty_inv_L.
    by apply leibniz_equiv.
Qed.

Lemma loadPeople_throws stack people st e :
  loadPeople stack people st = Throw e →
  e = no_valid_entry ∧ people = [] ∨
  e = no_root ∧
    (∃ root, findRootId (buildMap people) = Some root ∧ falsy_number root = true) ∨
  e = stack_overflow.
Proof.
  unfold loadPeople. case_decide as Hlen.
  { intros [= <-]. left. by apply length_zero_iff_nil in Hlen. }
  destruct (findRootId (buildMap people)) as [root|] eqn:Hroot.
  - destruct (falsy_number root) eqn:Hfalsy.
    + intros [= <-]. right. left. split; [done|]. by exists root.
    + destruct (buildTree stack root (buildMap people) (num 1)) as [[t|]|e'] eqn:Ht;
        cbn; [done| |].
      * by destruct (buildTree_present _ _ _ _ _ (findRootId_present _ _ Hroot) Ht).
      * intros [= <-]. right. right. by apply buildTree_throws in Ht.
  - apply findRootId_None in Hroot. destruct people as [|p people] using rev_ind; [done|].
    rewrite buildMap_snoc in Hroot. by apply insert_non_empty in Hroot.
Qed.

(** X6: the errors of the load of a list of people.  The no-valid-entry
    error is thrown exactly on the empty list; [findRootId] does not return
    [null] on a list that is not empty, so the no-root error is thrown only
    when the root selected is 0 or [NaN], never for want of one; the root
    selected is a key of the map, so [buildTree] does not return [null] for
    it and the tree-construction error is never thrown. *)
Theorem loadPeople_failures stack people st :
  (loadPeople stack people st = Throw no_valid_entry ↔ people = []) ∧
  (people ≠ [] → findRootId (buildMap people) ≠ None) ∧
  (loadPeople stack people st = Throw no_root →
     ∃ root, findRootId (buildMap people) = Some root ∧ falsy_number root = true) ∧
  (∀ root, findRootId (buildMap people) = Some root → is_Some (buildMap people !! root)) ∧
  (∀ root r, findRootId (buildMap people) = Some root →
     buildTree stack root (buildMap people) (num 1) = Normal r → is_Some r) ∧
  loadPeople stack people st ≠ Throw no_tree.
Proof.
  split; [|split; [|split; [|split; [|split]]]].
  - split.
    + intros [[_ ?]|[[[=] _]|[=]]]%loadPeople_throws. done.
    + intros ->. reflexivity.
  - intros Hne Hroot%findRootId_None. destruct people as [|p people] using rev_ind; [done|].
    rewrite buildMap_snoc in Hroot. by apply insert_non_empty in Hroot.
  - intros [[[=] _]|[[_ Hroot]|[=]]]%loadPeople_throws. exact Hroot.
  - apply findRootId_present.
  - intros root r Hroot Hr. eapply buildTree_present; [|exact Hr].
    by apply findRootId_present.
  - intros [[[=] _]|[[[=] _]|[=]]]%loadPeople_throws.
Qed.

Lemma falsy_num z : z ≠ 0%Z → falsy_number (num z) = false.
Proof.
  intros Hz. cbn. apply bool_decide_eq_false. intros [= Hq].
  assert (inject_Z z == 0)%Q as Hzero by (by rewrite <- (Qred_correct (inject_Z z)), Hq).
  unfold Qeq, inject_Z in Hzero. cbn in Hzero. lia.
Qed.

Lemma remove_dups_length (l : list number) : (length (remove_dups l) ≤ length l)%nat.
Proof. induction l as [|x l IH]; cbn; [done|]. case_decide; cbn; lia. Qed.

Lemma ahnentafel_integerKeys people :
  Forall (λ p, ahnentafel (id p)) people → integerKeys (buildMap people).
Proof.
  intros Hall k. rewrite buildMap_dom.
  intros (p & -> & Hp)%elem_of_list_to_set%list_elem_of_fmap.
  eapply Forall_forall in Hall as (z & Hz & Hrange); [|exact Hp].
  exists z. split; [done|lia].
Qed.

(** X7: a list of people that is not empty and whose identifiers are all
    positive integers below 2^52 always loads, given a stack deeper than the
    list is long: the state gets the tree, the length of the list and the
    single override of the root, which is the identifier of the tree's top
    node; it is 1 when some person has identifier 1 and the least
    identifier otherwise. *)
Theorem loadPeople_positive stack people st :
  people ≠ [] → Forall (λ p, ahnentafel (id p)) people → (length people < stack)%nat →
  ∃ root treeBuilt,
    loadPeople stack people st
      = Normal (setTree (Some treeBuilt)
                  (setPeopleCount (length people) (setOverrides {[root := expand]} st))) ∧
    id treeBuilt = root ∧
    root ∈ id <$> people ∧
    (num 1 ∈ id <$> people → root = num 1) ∧
    (num 1 ∉ id <$> people → ∀ p, p ∈ people → num_le root (id p)).
Proof.
  intros Hne Hpos Hstack.
  assert (∀ k, k ∈ dom (buildMap people) ↔ k ∈ id <$> people) as Hdom.
  { intros k. by rewrite buildMap_dom, elem_of_list_to_set. }
  assert (∀ k, k ∈ dom (buildMap people) → ahnentafel k) as Hkeys.
  { intros k (p & -> & Hp)%Hdom%list_elem_of_fmap. by eapply Forall_forall in Hpos. }
  assert (buildMap people ≠ ∅) as Hmap.
  { destruct people as [|p people] using rev_ind; [done|].
    rewrite buildMap_snoc. apply insert_non_empty. }
  destruct (findRootId (buildMap people)) as [root|] eqn:Hroot;
    [|by apply findRootId_None in Hroot].
  pose proof (findRootId_present _ _ Hroot) as Hin.
  destruct (Hkeys root) as (z & -> & Hz); [by apply elem_of_dom|].
  destruct (buildTree_returns stack (buildMap people) z (num 1)
              (ahnentafel_integerKeys people Hpos)) as [r Ht]; [lia..| |].
  { pose proof (keysBeyond_size (buildMap people) (Z.abs z)) as Hkeys'.
    rewrite buildMap_size in Hkeys'.
    pose proof (remove_dups_length (id <$> people)) as Hdup.
    rewrite length_fmap in Hdup. lia. }
  destruct (buildTree_present _ _ _ _ _ Hin Ht) as [t ->].
  exists (num z), t. split; [|split; [|split; [|split]]].
  - unfold loadPeople. case_decide as Hlen; [by apply length_zero_iff_nil in Hlen|].
    rewrite Hroot. rewrite falsy_num by lia. rewrite Ht. reflexivity.
  - destruct (buildTree_inv _ _ _ _ _ Ht) as (? & node & ? & ? & _ & Hnode & -> & _).
    apply buildMap_entity in Hnode as [Hid _]. exact Hid.
  - by apply Hdom, elem_of_dom.
  - intros Hone%Hdom%elem_of_dom. rewrite findRootId_one in Hroot by done. congruence.
  - intros Hone p Hp.
    destruct (findRootId_min (buildMap people)) as (root' & Hroot' & _ & Hleast); [done| |..].
    + apply not_elem_of_dom. by rewrite Hdom.
    + intros k Hk. by destruct (Hkeys k Hk) as (? & -> & _).
    + rewrite Hroot in Hroot'. injection Hroot' as <-.
      apply Hleast, Hdom, list_elem_of_fmap. by exists p.
Qed.

(** [loadPeople_positive] on the two records of identifier 1. *)
Lemma loadPeople_positive_witness :
  twins ≠ [] ∧ Forall (λ p, ahnentafel (id p)) twins ∧ (length twins < 3)%nat ∧
  ∃ root treeBuilt,
    loadPeople 3 twins initialState
      = Normal (setTree (Some treeBuilt)
                  (setPeopleCount (length twins)
                     (setOverrides {[root := expand]} initialState))) ∧
    id treeBuilt = root ∧
    root ∈ id <$> twins ∧
    (num 1 ∈ id <$> twins → root = num 1) ∧
    (num 1 ∉ id <$> twins → ∀ p, p ∈ twins → num_le root (id p)).
Proof.
  assert (twins ≠ []) as Hne by discriminate.
  assert (Forall (λ p, ahnentafel (id p)) twins) as Hpos.
  { repeat constructor; exists 1%Z; (split; [reflexivity|lia]). }
  assert (length twins < 3)%nat as Hlen by (cbn; lia).
  split; [exact Hne|]. split; [exact Hpos|]. split; [exact Hlen|].
  exact (loadPeople_positive 3 twins initialState Hne Hpos Hlen).
Defined.

Section LoadOutcomes.
Context `{JsRuntime}.

Lemma normalizeDataset_safe data : safe (normalizeDataset data).
Proof.
  unfold normalizeDataset. destruct (falsy data); [done|].
  apply safe_bind; [|done]. apply mapM_safe, normalizePerson_safe.
Qed.

(** How a load ends: with the three setters of a success on the cleared
    state, or with the message of what was thrown. *)
Lemma loadFile_cases stack path outcome st :
  (∃ (people : list NormalizedPerson) treeBuilt,
     loadFile stack path outcome st
     = setLoading false
         (setTree (Some treeBuilt)
            (setPeopleCount (length people)
               (setOverrides {[id treeBuilt := expand]}
                  (setTree None (setError "" (setLoading true st))))))) ∨
  (∃ e,
     loadFile stack path outcome st
     = setLoading false
         (setError (message e) (setTree None (setError "" (setLoading true st)))) ∧
     (outcome = Rejected e ∨
      (∃ status json, outcome = Response false status json ∧ e = cannotOpen path status) ∨
      (∃ status, outcome = Response true status (Throw e)) ∨
      e = cannot_convert ∨ e = no_valid_entry ∨ e = no_root ∨ e = stack_overflow)).
Proof.
  unfold loadFile. destruct outcome as [reason|[] status json]; cbn [negb].
  - right. exists reason. split; [done|]. by left.
  - destruct json as [json|e]; cbn [mbind Completion_bind].
    + pose proof (normalizeDataset_safe json) as Hsafe.
      destruct (normalizeDataset json) as [people|e]; cbn [mbind Completion_bind].
      * destruct (loadPeople stack people _) as [st'|e] eqn:Hload.
        -- left. pose proof Hload as (root & t & _ & _ & Ht & ->)%loadPeople_Normal.
           exists people, t. do 4 f_equal.
           destruct (buildTree_inv _ _ _ _ _ Ht) as (? & node & ? & ? & _ & Hnode & -> & _).
           apply buildMap_entity in Hnode as [<- _]. done.
        -- right. exists e. split; [done|].
           apply loadPeople_throws in Hload as [[-> _]|[[-> _]| ->]]; auto 10.
      * right. exists e. split; [done|]. cbn in Hsafe. subst e. auto 10.
    + right. exists e. split; [done|]. right. right. left. by exists status.
  - right. exists (cannotOpen path status). split; [done|]. right. left. by exists status, json.
Qed.

(** X8: whatever a load meets, it ends with [loading] off and the path
    untouched, and in one of two ways.  Either the fetch succeeded, the body
    was parsed and normalized and the load of the people returned: the state
    has a tree, no error message and the length of the normalized list.  Or
    something was thrown: the reason of the rejected fetch, the
    cannot-open error of a status that is not ok, what the parsing of the
    body threw, what the normalizer threw, or what the load of the people
    threw; the state then has no tree, that very exception's message, and
    the people count and the overrides it started with. *)
Theorem loadFile_settles stack path outcome st :
  loading (loadFile stack path outcome st) = false ∧
  dataPath (loadFile stack path outcome st) = dataPath st ∧
  ((∃ status json people treeBuilt,
      outcome = Response true status (Normal json) ∧
      normalizeDataset json = Normal people ∧
      tree (loadFile stack path outcome st) = Some treeBuilt ∧
      error (loadFile stack path outcome st) = "" ∧
      peopleCount (loadFile stack path outcome st) = length people) ∨
   (∃ e,
      (outcome = Rejected e ∨
       (∃ status json, outcome = Response false status json ∧ e = cannotOpen path status) ∨
       (∃ status, outcome = Response true status (Throw e)) ∨
       (∃ status json,
          outcome = Response true status (Normal json) ∧
          (normalizeDataset json = Throw e ∨
           ∃ people,
             normalizeDataset json = Normal people ∧
             loadPeople stack people (setTree None (setError "" (setLoading true st)))
             = Throw e))) ∧
      tree (loadFile stack path outcome st) = None ∧
      error (loadFile stack path outcome st) = message e ∧
      peopleCount (loadFile stack path outcome st) = peopleCount st ∧
      overrides (loadFile stack path outcome st) = overrides st)).
Proof.
  unfold loadFile. destruct outcome as [reason|[] status json]; cbn [negb].
  - split; [done|]. split; [done|]. right. exists reason. split; [by left|done].
  - destruct json as [json|e]; cbn [mbind Completion_bind].
    + destruct (normalizeDataset json) as [people|e] eqn:Hnorm; cbn [mbind Completion_bind].
      * destruct (loadPeople stack people _) as [st'|e] eqn:Hload.
        -- pose proof Hload as (root & t & _ & _ & Ht & ->)%loadPeople_Normal.
           split; [done|]. split; [done|]. left. by exists status, json, people, t.
        -- split; [done|]. split; [done|]. right. exists e. split; [|done].
           do 3 right. exists status, json. split; [done|]. right. by exists people.
      * split; [done|]. split; [done|]. right. exists e. split; [|done].
        do 3 right. exists status, json. split; [done|]. by left.
    + split; [done|]. split; [done|]. right. exists e. split; [|done].
      right. right. left. by exists status.
  - split; [done|]. split; [done|]. right. exists (cannotOpen path status).
    split; [|done]. right. left. by exists status, json.
Qed.

Lemma normalizePerson_without_id raw :
  (∀ key, key ∈ idKeys → nullish (OptGet raw key) = true) →
  normalizePerson raw = Normal None.
Proof.
  intros Hkeys.
  assert (∀ key, In key idKeys → nullish (OptGet raw key) = true) as Hin.
  { intros key Hkey. by apply Hkeys, list_elem_of_In. }
  unfold normalizePerson, parseId.
  rewrite (Hin "id"), (Hin "ID"), (Hin "Id"), (Hin "sosa"), (Hin "Sosa") by (cbn; tauto).
  reflexivity.
Qed.

Lemma normalizeDataset_without_id data :
  (∀ raw, raw ∈ containerOf data →
     ∀ key, key ∈ idKeys → nullish (OptGet raw key) = true) →
  normalizeDataset data = Normal [].
Proof.
  intros Hitems. unfold normalizeDataset. destruct (falsy data); [done|].
  induction (containerOf data) as [|raw l IH]; [done|]. cbn [mapM].
  rewrite normalizePerson_without_id by (apply Hitems; by left).
  cbn [mbind Completion_bind].
  destruct (mapM normalizePerson l) as [rs|]; cbn [mbind Completion_bind] in *.
  - apply IH. intros raw' Hraw'. apply Hitems. by right.
  - specialize (IH ltac:(intros raw' Hraw'; apply Hitems; by right)). done.
Qed.

(** X9: a file in which no record carries a value under any of the five
    identifier keys (an empty list, [null], records of other keys only, or
    identifiers that are all [null]) ends the load with the no-valid-entry
    message and no tree, whatever else the records hold. *)
Theorem loadFile_without_identifiers stack path status json st :
  (∀ raw, raw ∈ containerOf json →
     ∀ key, key ∈ idKeys → nullish (OptGet raw key) = true) →
  error (loadFile stack path (Response true status (Normal json)) st)
    = "Aucune entrée valide trouvée dans ce fichier." ∧
  tree (loadFile stack path (Response true status (Normal json)) st) = None.
Proof.
  intros Hitems. unfold loadFile. cbn [negb mbind Completion_bind].
  rewrite normalizeDataset_without_id by done. cbn. done.
Qed.

Lemma cannotOpen_message path status : message (cannotOpen path status) ≠ "".
Proof. discriminate. Qed.

(** X10: once a load has ended, [App] shows one thing: the tree, its root
    card drawn with the default budget under the single override of the
    root, or the error box with the message of what was thrown; neither the
    loader nor the empty state, provided that what the fetch or the parsing
    of the body threw, if they did, has a message. *)
Theorem App_after_load stack path outcome st :
  (∀ reason, outcome = Rejected reason → message reason ≠ "") →
  (∀ status e, outcome = Response true status (Throw e) → message e ≠ "") →
  (∃ treeBuilt,
     tree (loadFile stack path outcome st) = Some treeBuilt ∧
     App (loadFile stack path outcome st)
     = [Tree (PersonCard treeBuilt DEFAULT_DEPTH {[id treeBuilt := expand]})]) ∨
  (tree (loadFile stack path outcome st) = None ∧
   error (loadFile stack path outcome st) ≠ "" ∧
   App (loadFile stack path outcome st) = [ErrorBox (error (loadFile stack path outcome st))]).
Proof.
  intros Hrejected Hbody.
  destruct (loadFile_cases stack path outcome st) as [(people & t & ->)|(e & -> & He)].
  - left. by exists t.
  - right. assert (message e ≠ "") as Hmessage.
    { destruct He as [->|[(status & json & -> & ->)|[(status & ->)|He]]].
      - by apply Hrejected.
      - apply cannotOpen_message.
      - by eapply Hbody.
      - by destruct He as [->|[->|[->| ->]]]. }
    split; [done|]. split; [done|]. unfold App. cbn.
    destruct (decide (message e = "")); [done|]. cbn.
    rewrite bool_decide_false by done. done.
Qed.

End LoadOutcomes.

(** [loadFile_without_identifiers] on the file [[{"foo": 1}]]. *)
Lemma loadFile_without_identifiers_witness :
  (∀ raw, raw ∈ containerOf (JArr [JObj [("foo", JNum (num 1))]]) →
     ∀ key, key ∈ idKeys → nullish (OptGet raw key) = true) ∧
  error (@loadFile sampleRuntime 8 DEFAULT_PATH
           (Response true 200 (Normal (JArr [JObj [("foo", JNum (num 1))]])))
           initialState)
    = "Aucune entrée valide trouvée dans ce fichier.".
Proof.
  assert (∀ raw, raw ∈ containerOf (JArr [JObj [("foo", JNum (num 1))]]) →
            ∀ key, key ∈ idKeys → nullish (OptGet raw key) = true) as Hitems.
  { intros raw ->%list_elem_of_singleton key Hkey. unfold idKeys in Hkey.
    repeat (apply elem_of_cons in Hkey as [->|Hkey]; [reflexivity|]).
    by apply elem_of_nil in Hkey. }
  split; [exact Hitems|].
  exact (proj1 (@loadFile_without_identifiers sampleRuntime 8 DEFAULT_PATH 200 _
                  initialState Hitems)).
Defined.

(** [App_after_load] on a fetch that is rejected. *)
Lemma App_after_load_witness :
  App (@loadFile sampleRuntime 8 DEFAULT_PATH (Rejected (TypeError "Failed to fetch"))
         initialState)
  = [ErrorBox "Failed to fetch"].
Proof.
  destruct (@App_after_load sampleRuntime 8 DEFAULT_PATH
              (Rejected (TypeError "Failed to fetch")) initialState)
    as [(t & Ht & _)|(_ & _ & Happ)].
  - intros reason [= <-]. discriminate.
  - discriminate.
  - discriminate Ht.
  - exact Happ.
Defined.

(** ** Clicks and what is shown *)

(** X11: a click on a card that has children flips whether they are shown,
    from then on whatever budget the card inherits; a click on a card
    without children shows nothing; and a second click brings a card back
    to showing or hiding its children as it did before the first. *)
Theorem click_flips node (d : Z) (o : Overrides) :
  (hasChildren node = true →
   ∀ d' : Z, showChildren node d' (toggle node d o o) = negb (showChildren node d o)) ∧
  (hasChildren node = false →
   ∀ d' : Z, showChildren node d' (toggle node d o o) = false) ∧
  (∀ d' d'' : Z,
     showChildren node d''
       (toggle node d' (toggle node d o o) (toggle node d o o))
     = showChildren node d o).
Proof.
  assert (∀ (prev shown : Overrides) (d0 d1 : Z),
            showChildren node d1 (toggle node d0 shown prev)
            = hasChildren node && negb (showChildren node d0 shown)) as Hclick.
  { intros prev shown d0 d1. unfold toggle.
    unfold showChildren at 1. unfold effectiveDepth. rewrite lookup_insert_eq.
    by destruct (showChildren node d0 shown). }
  split; [|split].
  - intros Hkids d'. rewrite Hclick, Hkids. reflexivity.
  - intros Hkids d'. rewrite Hclick, Hkids. reflexivity.
  - intros d' d''. rewrite !Hclick. unfold showChildren.
    destruct (hasChildren node); [|reflexivity].
    destruct (bool_decide _); reflexivity.
Qed.

(** [click_flips] on the first node of the chain under the default budget:
    open, closed by a click, open again by a second. *)
Lemma click_flips_witness :
  hasChildren chainOfFive = true ∧
  showChildren chainOfFive 4 ∅ = true ∧
  showChildren chainOfFive 4 (toggle chainOfFive 4 ∅ ∅) = false ∧
  showChildren chainOfFive 4
    (toggle chainOfFive 4 (toggle chainOfFive 4 ∅ ∅) (toggle chainOfFive 4 ∅ ∅)) = true.
Proof.
  assert (hasChildren chainOfFive = true) as Hkids by (vm_compute; reflexivity).
  assert (showChildren chainOfFive 4 ∅ = true) as Hopen by (vm_compute; reflexivity).
  destruct (click_flips chainOfFive 4 ∅) as (Hflip & _ & Hback).
  split; [exact Hkids|]. split; [exact Hopen|]. split.
  - rewrite (Hflip Hkids 4%Z), Hopen. reflexivity.
  - rewrite (Hback 4%Z 4%Z). exact Hopen.
Defined.

(** A budget [b >= 1] shows the first [b] levels of a tree none of whose
    nodes has an override. *)
Lemma PersonCard_levels_unset d : ∀ node (b : Z) (o : Overrides),
  (1 ≤ b)%Z →
  (∀ d' n, n ∈ nodesAt d' node → o !! id n = None) →
  cardsAt d (PersonCard node b o)
  = if bool_decide (Z.of_nat d < b)%Z then id <$> nodesAt d node else [].
Proof.
  induction d as [|d IH]; intros node b o Hb Hunset; rewrite PersonCard_unfold.
  - cbn. rewrite bool_decide_true by lia. done.
  - cbn [cardsAt nodesAt].
    unfold showChildren, childDepth, effectiveDepth.
    rewrite (Hunset 0%nat node) by (by apply list_elem_of_singleton).
    rewrite Z.max_l by lia.
    assert (∀ child d' n, child ∈ children node → n ∈ nodesAt d' child →
              o !! id n = None) as Hkids_unset.
    { intros child d' n Hchild Hn. apply (Hunset (S d')). cbn.
      apply list_elem_of_In, in_flat_map. exists child. by rewrite <- !list_elem_of_In. }
    destruct (hasChildren node) eqn:Hkids; cbn [andb].
    + case_bool_decide as Hshow.
      * rewrite Z.max_l by lia.
        induction (children node) as [|child kids IHkids]; [by case_bool_decide|].
        cbn. rewrite IHkids, IH; [|lia|..].
        -- repeat case_bool_decide; try lia; by rewrite ?fmap_app.
        -- intros d' n Hn. eapply Hkids_unset; [by left|done].
        -- intros c d' n Hc. apply Hkids_unset. by right.
      * rewrite (bool_decide_false (Z.of_nat (S d) < b)%Z) by lia. done.
    + apply hasChildren_nil in Hkids as ->. cbn. by case_bool_decide.
Qed.

(** X12: after the load of people of positive identifiers has succeeded,
    the tree is drawn from the default budget under the override of its
    root alone, and the cards shown are exactly those of its first four
    levels, every deeper node being hidden. *)
Theorem loaded_tree_shows_four_levels stack people st st' :
  Forall (λ p, positive (id p)) people →
  loadPeople stack people st = Normal st' →
  ∃ treeBuilt,
    tree st' = Some treeBuilt ∧
    ∀ level,
      cardsAt level (PersonCard treeBuilt DEFAULT_DEPTH (overrides st'))
      = if bool_decide (level < 4)%nat then id <$> nodesAt level treeBuilt else [].
Proof.
  intros Hpos (root & t & Hroot & _ & Ht & ->)%loadPeople_Normal.
  exists t. split; [done|]. cbn [overrides setTree setPeopleCount setOverrides].
  assert (id t = root) as Hid.
  { destruct (buildTree_inv _ _ _ _ _ Ht) as (? & node & ? & ? & _ & Hnode & -> & _).
    apply buildMap_entity in Hnode as [Hid _]. exact Hid. }
  assert (∀ d n, n ∈ nodesAt (S d) t → ({[root := expand]} : Overrides) !! id n = None)
    as Habove.
  { intros d n Hn. apply lookup_singleton_ne. intros Heq.
    apply (presentAt_above _ _ d _ _ _ Ht).
    rewrite <- (built_levels (S d) _ _ _ _ _ Ht), Heq. apply list_elem_of_fmap. by exists n. }
  intros [|level]; rewrite PersonCard_unfold.
  - done.
  - cbn [cardsAt nodesAt]. unfold showChildren, childDepth, effectiveDepth.
    rewrite Hid, lookup_singleton_eq. unfold DEFAULT_DEPTH.
    destruct (hasChildren t) eqn:Hkids; cbn [andb].
    + rewrite bool_decide_true by lia. change (Z.max (4 - 1) 0) with 3%Z.
      assert (∀ child d' n, child ∈ children t → n ∈ nodesAt d' child →
                ({[root := expand]} : Overrides) !! id n = None) as Hkids_unset.
      { intros child d' n Hchild Hn. apply (Habove d'). cbn.
        apply list_elem_of_In, in_flat_map. exists child. by rewrite <- !list_elem_of_In. }
      induction (children t) as [|child kids IHkids]; [by case_bool_decide|].
      cbn. rewrite IHkids, PersonCard_levels_unset; [|lia|..].
      * repeat case_bool_decide; try lia; by rewrite ?fmap_app.
      * intros d' n Hn. eapply Hkids_unset; [by left|done].
      * intros c d' n Hc. apply Hkids_unset. by right.
    + apply hasChildren_nil in Hkids as ->. cbn. by case_bool_decide.
Qed.

(** [loaded_tree_shows_four_levels] on the line of five generations: the
    load succeeds and the fifth generation is not drawn. *)
Lemma loaded_tree_shows_four_levels_witness :
  Forall (λ p, positive (id p)) chainPeople ∧
  ∃ st',
    loadPeople 6 chainPeople initialState = Normal st' ∧
    ∃ treeBuilt,
      tree st' = Some treeBuilt ∧
      ∀ level,
        cardsAt level (PersonCard treeBuilt DEFAULT_DEPTH (overrides st'))
        = if bool_decide (level < 4)%nat then id <$> nodesAt level treeBuilt else [].
Proof.
  assert (Forall (λ p, positive (id p)) chainPeople) as Hpos.
  { repeat constructor; eexists; (split; [reflexivity|]); vm_compute; reflexivity. }
  assert (∃ st', loadPeople 6 chainPeople initialState = Normal st') as [st' Hload]
    by (eexists; vm_compute; reflexivity).
  split; [exact Hpos|]. exists st'. split; [exact Hload|].
  exact (loaded_tree_shows_four_levels 6 chainPeople initialState st' Hpos Hload).
Defined.

(** ** The face of a card *)

Lemma append_empty (a b : string) : a ++ b = "" → a = "".
Proof. by destruct a. Qed.

Lemma join_nonempty separator (parts : list string) :
  Forall (λ part, part ≠ "") parts → join separator parts = "" → parts = [].
Proof.
  destruct parts as [|x rest]; [done|]. intros [Hx _]%Forall_cons. cbn.
  destruct rest; [done|]. by intros ?%append_empty.
Qed.

Lemma filterJoin_empty separator (parts : list string) :
  filterJoin separator parts = "" ↔ Forall (λ part, part = "") parts.
Proof.
  unfold filterJoin. split.
  - intros Hjoin%join_nonempty.
    + apply Forall_forall. intros part Hpart. destruct (decide (part = "")) as [|Hne]; [done|].
      assert (part ∈ filter (λ part, part ≠ "") parts) as Hin
        by (by apply list_elem_of_filter).
      rewrite Hjoin in Hin. by apply elem_of_nil in Hin.
    + apply Forall_forall. by intros part [? _]%list_elem_of_filter.
  - intros Hall. induction Hall as [|x rest -> _ IH]; [done|].
    by rewrite filter_cons_False by (by intros []).
Qed.

(** X13: the rows of a card.  The birth, union and death rows are drawn
    exactly when one of their fields is filled (dates and places for birth
    and death, with the age at death; the spouse, the date or the place for
    the union), the row of the descendants is always drawn, and a row with
    one filled field shows that field bare, without a separator. *)
Theorem infoRows_shown node :
  (infoRows node !! 0%nat = Some None ↔ birthDate node = "" ∧ birthPlace node = "") ∧
  (infoRows node !! 1%nat = Some None ↔
     spouse node = "" ∧ unionDate node = "" ∧ unionPlace node = "") ∧
  (∃ value, infoRows node !! 2%nat = Some (Some ("Descendance", value))) ∧
  (infoRows node !! 3%nat = Some None ↔
     deathDate node = "" ∧ deathPlace node = "" ∧ deathAge node = "") ∧
  (∀ separator a, a ≠ "" →
     filterJoin separator [a; ""] = a ∧ filterJoin separator [""; a] = a) ∧
  (∀ separator a b, a ≠ "" → b ≠ "" → filterJoin separator [a; b] = a ++ separator ++ b).
Proof.
  assert (∀ label value, InfoRow label value = None ↔ value = "") as Hrow.
  { intros label value. unfold InfoRow. by case_decide. }
  unfold infoRows. cbn [lookup list_lookup].
  split; [|split; [|split; [|split; [|split]]]].
  - split.
    + intros [= Hnone]. apply Hrow, filterJoin_empty in Hnone.
      by apply Forall_cons in Hnone as [? [? _]%Forall_cons].
    + intros [Ha Hb]. f_equal. apply Hrow, filterJoin_empty. by repeat constructor.
  - split.
    + intros [= Hnone]. apply Hrow, filterJoin_empty in Hnone.
      apply Forall_cons in Hnone as [? [Hunion%filterJoin_empty _]%Forall_cons].
      by apply Forall_cons in Hunion as [? [? _]%Forall_cons].
    + intros (Ha & Hb & Hc). f_equal. apply Hrow, filterJoin_empty.
      repeat constructor; [done|]. apply filterJoin_empty. by repeat constructor.
  - unfold InfoRow. destruct (decide (childrenCount node = "")) as [Hcount|Hcount].
    + by eexists.
    + case_decide as Hvalue; [|by eexists]. by apply append_empty in Hvalue.
  - split.
    + intros [= Hnone]. apply Hrow, filterJoin_empty in Hnone.
      by apply Forall_cons in Hnone as [? [? [? _]%Forall_cons]%Forall_cons].
    + intros (Ha & Hb & Hc). f_equal. apply Hrow, filterJoin_empty. by repeat constructor.
  - intros separator a Ha. unfold filterJoin. split.
    + rewrite filter_cons_True, filter_cons_False by (done || by intros []). done.
    + rewrite filter_cons_False, filter_cons_True by (done || by intros []). done.
  - intros separator a b Ha Hb. unfold filterJoin.
    rewrite !filter_cons_True by done. done.
Qed.

(** X15: however often the effect of [App] runs, it asks for one load, of
    the default path, at its first run, and leaves the mark set. *)
Theorem initialLoad_once n :
  runInitialLoad (S n) false = (true, [DEFAULT_PATH]) ∧
  runInitialLoad n true = (true, []).
Proof.
  assert (∀ k, runInitialLoad k true = (true, [])) as Hdone.
  { induction k as [|k IH]; [done|]. cbn. by rewrite IH. }
  split; [|apply Hdone]. cbn. by rewrite Hdone.
Qed.

Section Badges.
Context `{JsRuntime}.

(** X14: in a tree built from generation 1, every node is the copy of its
    own entity, and its badge follows from what that entity stores: with no
    generation stored the node carries the badge of its level, the root
    being level 1, so it always has one; with the generation 0 (or [NaN])
    stored it has no badge at all; with any other generation stored it
    carries the badge of that generation. *)
Theorem badge_of_built_node stack (m : PeopleMap) k t d c :
  buildTree stack k m (num 1) = Normal (Some t) → c ∈ nodesAt d t →
  (Z.of_nat d < 2 ^ 53)%Z →
  ∃ key node kids,
    key ∈ keysAt d k ∧ m !! key = Some node ∧
    c = treeNode node (num (1 + Z.of_nat d)) kids ∧
    (generation node = None →
     badge c = Some ("Génération " ++ NumberToString (num (1 + Z.of_nat d)))) ∧
    (∀ g, generation node = Some g → falsy_number g = true → badge c = None) ∧
    (∀ g, generation node = Some g → falsy_number g = false →
       badge c = Some ("Génération " ++ NumberToString g)).
Proof.
  intros Ht Hc Hd.
  destruct (built_node d _ _ _ _ _ _ Ht Hc) as (key & e & kids & Hkey & He & ->).
  rewrite counter_from_one by done.
  exists key, e, kids. split; [done|]. split; [done|]. split; [done|].
  unfold badge. cbn [generation treeNode]. split; [|split].
  - intros ->. change (default ?x None) with x. rewrite falsy_num by lia. done.
  - intros g -> Hfalsy. change (default ?x (Some g)) with g. by rewrite Hfalsy.
  - intros g -> Hfalsy. change (default ?x (Some g)) with g. by rewrite Hfalsy.
Qed.

End Badges.

(** [badge_of_built_node] on the child of the tree of [{1 (generation 0), 2}]:
    the root, of stored generation 0, has no badge, and its parent has the
    badge of level 2. *)
Lemma badge_of_built_node_witness :
  ∃ t c,
    buildTree 2 (num 1)
      (buildMap [entity (num 1) (Some (num 0)); entity (num 2) None]) (num 1)
      = Normal (Some t) ∧
    c ∈ nodesAt 1 t ∧
    @badge sampleRuntime t = None ∧
    @badge sampleRuntime c = Some ("Génération " ++ @NumberToString sampleRuntime (num 2)) ∧
    ∃ key node kids,
      key ∈ keysAt 1 (num 1) ∧
      buildMap [entity (num 1) (Some (num 0)); entity (num 2) None] !! key = Some node ∧
      c = treeNode node (num (1 + Z.of_nat 1)) kids ∧
      (generation node = None →
       @badge sampleRuntime c
       = Some ("Génération " ++ @NumberToString sampleRuntime (num (1 + Z.of_nat 1)))) ∧
      (∀ g, generation node = Some g → falsy_number g = true →
         @badge sampleRuntime c = None) ∧
      (∀ g, generation node = Some g → falsy_number g = false →
         @badge sampleRuntime c
         = Some ("Génération " ++ @NumberToString sampleRuntime g)).
Proof.
  assert (buildTree 2 (num 1)
            (buildMap [entity (num 1) (Some (num 0)); entity (num 2) None]) (num 1)
          = Normal (Some (treeNode (entity (num 1) (Some (num 0))) (num 1)
                            [treeNode (entity (num 2) None) (num 2) []]))) as Ht
    by (vm_compute; reflexivity).
  eexists _, (treeNode (entity (num 2) None) (num 2) []).
  split; [exact Ht|].
  split; [cbn [nodesAt children treeNode flat_map app]; apply list_elem_of_singleton;
          reflexivity|].
  split; [reflexivity|]. split; [reflexivity|].
  refine (@badge_of_built_node sampleRuntime 2 _ (num 1) _ 1 _ Ht _ _).
  - cbn [nodesAt children treeNode flat_map app]. apply list_elem_of_singleton. reflexivity.
  - vm_compute. reflexivity.
Defined.
